(** * smart_mouse.cpp: detection-and-matching pipeline

    A shallow embedding of [SmartVision] (region filter, element
    synthesis, fuzzy text matching, winner selection) and of
    [SmartMouse::clickOn], with the properties of the specification
    stated over it.

    Conventions.
    - [float] is IEEE-754 binary32 with round-to-nearest-even, every
      operation rounded to binary32 (the behaviour on x86-64 and AArch64).
      It is modelled by [spec_float] at precision 24, [emax] 128.
    - [int] is a 32-bit two's complement integer; arithmetic on it wraps
      ([Int.wrap]).
    - [std::string] is [string]; [std::string::npos] is [None].
    - OpenCV, Tesseract and the display are collaborators: their results
      are parameters of the model. *)

From Stdlib Require Import ZArith List String Ascii Bool Lia QArith.
From Stdlib Require Import SpecFloat.
From Stdlib Require Import Permutation.
Import ListNotations.

Local Open Scope Z_scope.

(* ------------------------------------------------------------------ *)
(** ** Machine integers *)

Module Int.

Definition min_signed : Z := - 2 ^ 31.
Definition max_signed : Z := 2 ^ 31 - 1.
Definition modulus : Z := 2 ^ 32.

(** Two's complement reduction into [[-2^31, 2^31)]. *)
Definition wrap (z : Z) : Z := (z + 2 ^ 31) mod modulus - 2 ^ 31.

Definition add (a b : Z) : Z := wrap (a + b).
Definition sub (a b : Z) : Z := wrap (a - b).
(** C++ [/] on [int] truncates toward zero. *)
Definition quot (a b : Z) : Z := wrap (Z.quot a b).

Definition in_range (z : Z) : Prop := min_signed <= z <= max_signed.

End Int.

(* ------------------------------------------------------------------ *)
(** ** binary32 *)

Module B32.

Definition prec : Z := 24.
Definition emax : Z := 128.

Definition float := spec_float.

Definition mul : float -> float -> float := SFmul prec emax.
Definition div : float -> float -> float := SFdiv prec emax.
Definition ltb : float -> float -> bool := SFltb.
Definition leb : float -> float -> bool := SFleb.

(** Conversion of an integer ([int] or [size_t]) to [float]. *)
Definition of_Z (n : Z) : float := binary_normalize prec emax n 0 false.

(** A decimal literal [p/q] is the correctly rounded quotient. *)
Definition literal (p q : Z) : float := div (of_Z p) (of_Z q).

Definition zero : float := S754_zero false.
Definition f0_3 : float := Eval vm_compute in literal 3 10.
Definition f0_5 : float := Eval vm_compute in literal 5 10.
Definition f0_7 : float := Eval vm_compute in literal 7 10.
Definition f0_9 : float := Eval vm_compute in literal 9 10.
Definition f1_2 : float := Eval vm_compute in literal 12 10.
Definition f1 : float := Eval vm_compute in of_Z 1.
Definition f100 : float := Eval vm_compute in of_Z 100.

(** Exact rational value of a finite float (0 on infinities and NaN). *)
Definition to_Q (x : float) : Q :=
  match x with
  | S754_finite s m e =>
      Qmake ((if s then Z.neg m else Z.pos m) * 2 ^ Z.max e 0)
            (Z.to_pos (2 ^ Z.max (- e) 0))
  | _ => 0%Q
  end.

Definition is_finite (x : float) : bool :=
  match x with
  | S754_zero _ | S754_finite _ _ _ => true
  | _ => false
  end.

Definition valid (x : float) : bool := valid_binary prec emax x.

Definition is_nan (x : float) : bool :=
  match x with S754_nan => true | _ => false end.

(** Position of a float in the order of [SFcompare]: sign class, then
    exponent, then mantissa. *)
Definition rank (x : float) : Z * (Z * Z) :=
  match x with
  | S754_nan => (0, (0, 0))
  | S754_zero _ => (0, (0, 0))
  | S754_infinity true => (-2, (0, 0))
  | S754_infinity false => (2, (0, 0))
  | S754_finite true m e => (-1, (- e, Z.neg m))
  | S754_finite false m e => (1, (e, Z.pos m))
  end.

Definition lex3 (a b : Z * (Z * Z)) : comparison :=
  match fst a ?= fst b with
  | Eq => match fst (snd a) ?= fst (snd b) with
          | Eq => snd (snd a) ?= snd (snd b)
          | c => c
          end
  | c => c
  end.

Definition fexp32 : Z -> Z := fexp prec emax.

(** Where [N / D] lies between the integers around it. *)
Definition loc_of_rem (N D : Z) : location :=
  let r := N mod D in
  if r =? 0 then loc_Exact else loc_Inexact (2 * r ?= D).

(** [mrs] is the floor of [N / D] with its round and sticky bits. *)
Definition repr (N D : Z) (mrs : shr_record) : Prop :=
  shr_m mrs = N / D /\ loc_of_shr_record mrs = loc_of_rem N D.

(** [N / D] rounded to the nearest integer, ties to even. *)
Definition rne (N D : Z) : Z := round_nearest_even (N / D) (loc_of_rem N D).

(** The IEEE-754 bit pattern of a non-negative binary32 read as an
    integer. *)
Definition inf_bits : Z := 255 * 2 ^ 23.

Definition bits (x : float) : Z :=
  match x with
  | S754_zero _ => 0
  | S754_finite _ m e => (e + 149) * 2 ^ 23 + Z.pos m
  | S754_infinity _ => inf_bits
  | S754_nan => inf_bits + 1
  end.

(** [+0], a valid positive finite float, or [+inf]. *)
Definition nonneg (x : float) : bool :=
  match x with
  | S754_zero s | S754_infinity s => negb s
  | S754_finite s m e => negb s && bounded prec emax m e
  | S754_nan => false
  end.

Definition pos_finite (x : float) : bool :=
  match x with
  | S754_finite false m e => bounded prec emax m e
  | _ => false
  end.

Definition fin_nonneg (x : float) : bool :=
  match x with
  | S754_zero false => true
  | S754_finite false m e => bounded prec emax m e
  | _ => false
  end.

(** Rounding of the non-negative rational [N / D * 2 ^ ex]. *)
Definition round32 (N D ex : Z) : float :=
  binary_round_aux prec emax false (N / D) ex (loc_of_rem N D).

(** The mantissa [N / D] is long enough for [binary_round_aux]. *)
Definition ready (N D ex : Z) : Prop :=
  0 <= N /\ 0 < D /\ ex <= fexp32 (Zdigits2 (N / D) + ex).

(** [m1 * 2 ^ e1 <= m2 * 2 ^ e2], at any common scale. *)
Definition dle (m1 e1 m2 e2 : Z) : Prop :=
  forall t, t <= e1 -> t <= e2 -> m1 * 2 ^ (e1 - t) <= m2 * 2 ^ (e2 - t).

(** The exponent chosen by [SFdiv_core_binary]. *)
Definition div_exp (m1 e1 m2 e2 : Z) : Z :=
  Z.min (fexp32 (Zdigits2 m1 + e1 - (Zdigits2 m2 + e2))) (e1 - e2).

End B32.

Import B32.

(* ------------------------------------------------------------------ *)
(** ** std::string *)

Local Open Scope string_scope.

(** [::tolower] in the C locale. *)
Definition tolower (c : ascii) : ascii :=
  let n := N_of_ascii c in
  if ((65 <=? n) && (n <=? 90))%N then ascii_of_N (n + 32) else c.

(** [std::transform(s.begin(), s.end(), s.begin(), f)]. *)
Fixpoint transform (f : ascii -> ascii) (s : string) : string :=
  match s with
  | EmptyString => EmptyString
  | String c s' => String (f c) (transform f s')
  end.

(** [s.find(str)]: the lowest position at which [str] occurs in [s]. *)
Fixpoint find (s str : string) : option nat :=
  if prefix str s then Some 0%nat
  else match s with
       | EmptyString => None
       | String _ s' => option_map S (find s' str)
       end.

(** [s.find(c)] for a single character. *)
Fixpoint find_char (s : string) (c : ascii) : option nat :=
  match s with
  | EmptyString => None
  | String d s' => if Ascii.eqb d c then Some 0%nat
                   else option_map S (find_char s' c)
  end.

(** [pos != std::string::npos]. *)
Definition not_npos (pos : option nat) : bool :=
  match pos with Some _ => true | None => false end.

(** The notions the specification uses: [x] is a substring of [s]; the
    character [c] occurs in [s]; the number of characters of [s], counted
    with repetition, that occur in [t]. *)
Definition substring_of (x s : string) : Prop :=
  exists pre post, s = pre ++ x ++ post.

Fixpoint occurs (c : ascii) (s : string) : bool :=
  match s with
  | EmptyString => false
  | String d s' => Ascii.eqb c d || occurs c s'
  end.

Fixpoint count_occurring (s t : string) : nat :=
  match s with
  | EmptyString => 0%nat
  | String c s' => ((if occurs c t then 1 else 0) + count_occurring s' t)%nat
  end.

(* ------------------------------------------------------------------ *)
(** ** Geometry and UI elements *)

Record Rect := mkRect { rx : Z; ry : Z; width : Z; height : Z }.
Record Point := mkPoint { px : Z; py : Z }.

Record UIElement := mkUIElement {
  bounds : Rect;
  text : string;
  type : string;
  confidence : float
}.

(** [UIElement::center]. *)
Definition center (e : UIElement) : Point :=
  mkPoint (Int.add (rx (bounds e)) (Int.quot (width (bounds e)) 2))
          (Int.add (ry (bounds e)) (Int.quot (height (bounds e)) 2)).

(* ------------------------------------------------------------------ *)
(** ** SmartVision: matching *)

(** The counting loop of [textSimilarity]: [matches] is an [int]. *)
Fixpoint count_matches (lowerA lowerB : string) (matches : Z) : Z :=
  match lowerA with
  | EmptyString => matches
  | String c rest =>
      count_matches rest lowerB
        (if not_npos (find_char lowerB c) then Int.add matches 1 else matches)
  end.

Definition textSimilarity (a b : string) : float :=
  let lowerA := transform tolower a in
  let lowerB := transform tolower b in
  if not_npos (find lowerA lowerB) || not_npos (find lowerB lowerA)
  then f0_9
  else
    let matches := count_matches lowerA lowerB 0 in
    div (of_Z matches)
        (of_Z (Z.of_nat (Nat.max (length lowerA) (length lowerB)))).

(** The body of the loop of [findBestMatch] up to the comparison. *)
Definition score (elem : UIElement) (query : string) : float :=
  let score := textSimilarity (text elem) query in
  let score := if String.eqb (type elem) "button" then mul score f1_2
               else score in
  mul score (div (confidence elem) f100).

(** A [UIElement*] into the vector: the position pointed to together with
    the element stored there; [None] is [nullptr]. *)
Definition ElemPtr : Type := (nat * UIElement)%type.

(** The loop of [findBestMatch], from position [i] on. *)
Fixpoint findBestMatch_loop (elements : list UIElement) (query : string)
    (i : nat) (best : option ElemPtr) (bestScore : float)
    : option ElemPtr * float :=
  match elements with
  | [] => (best, bestScore)
  | elem :: rest =>
      let s := score elem query in
      if ltb bestScore s
      then findBestMatch_loop rest query (S i) (Some (i, elem)) s
      else findBestMatch_loop rest query (S i) best bestScore
  end.

Definition findBestMatch (elements : list UIElement) (query : string)
    : option ElemPtr :=
  let '(best, bestScore) := findBestMatch_loop elements query 0 None zero in
  if ltb f0_3 bestScore then best else None.

(* ------------------------------------------------------------------ *)
(** ** SmartVision: detection and synthesis *)

(** One position of the Tesseract word iterator: [GetUTF8Text] (null is
    [None]), [Confidence] and [BoundingBox]. *)
Record OcrWord := mkOcrWord {
  word : option string;
  conf : float;
  x1 : Z; y1 : Z; x2 : Z; y2 : Z
}.

(** The size and aspect test of [detectButtonRegions]. *)
Definition button_like (rect : Rect) : bool :=
  ((40 <? width rect) && (width rect <? 400) &&
   (20 <? height rect) && (height rect <? 100) &&
   (height rect <? width rect))%Z.

Section Vision.

(** [cv::Mat]. *)
Variable Mat : Type.
(** [cv::boundingRect] of every contour that [cv::findContours] reports,
    with [RETR_EXTERNAL], on the dilated Canny edges of the image. *)
Variable contourBoxes : Mat -> list Rect.
(** The positions the word-level result iterator runs through after
    [Recognize]; empty when [GetIterator] returns null. *)
Variable recognizeWords : Mat -> list OcrWord.
(** [GetUTF8Text] on the sub-image [screenshot(rect)]; [None] is null. *)
Variable cropText : Mat -> Rect -> option string.

Definition detectButtonRegions (img : Mat) : list Rect :=
  filter button_like (contourBoxes img).

Definition detectTextRegions (img : Mat) : list UIElement :=
  flat_map
    (fun w =>
       match word w with
       | None => []
       | Some t =>
           [ mkUIElement
               (mkRect (x1 w) (y1 w) (Int.sub (x2 w) (x1 w))
                       (Int.sub (y2 w) (y1 w)))
               t "text" (conf w) ]
       end)
    (recognizeWords img).

Definition analyzeScreen (screenshot : Mat) : list UIElement :=
  let textElements := detectTextRegions screenshot in
  let buttonRects := detectButtonRegions screenshot in
  (textElements ++
  map (fun rect =>
         mkUIElement rect
           (match cropText screenshot rect with
            | Some t => t
            | None => EmptyString
            end)
           "button" f0_7)
      buttonRects)%list.

(* ---------------------------------------------------------------- *)
(** ** ScreenController and SmartMouse *)

Inductive MouseButton := LeftButton | RightButton.

Inductive Message :=
| MsgDetected (n : nat)
| MsgClicking (t : string) (x y : Z)
| MsgNotFound (target : string).

(** What the process does to the outside world, in order. *)
Inductive Event :=
| EvCapture
| EvMoveMouse (x y : Z)
| EvSleep (ms : Z)
| EvButton (b : MouseButton) (down : bool)
| EvPrint (m : Message).

(** The members of [SmartMouse] and the world it acts on: [display n] is
    what the screen shows at the [n]-th capture. *)
Record Machine := mkMachine {
  lastScreenshot : option Mat;
  lastElements : list UIElement;
  display : nat -> Mat;
  captures : nat;
  trace : list Event
}.

Definition Cmd (A : Type) : Type := Machine -> A * Machine.

Definition ret {A} (a : A) : Cmd A := fun m => (a, m).
Definition bind {A B} (c : Cmd A) (k : A -> Cmd B) : Cmd B :=
  fun m => let '(a, m') := c m in k a m'.

Notation "x <- c ;; k" := (bind c (fun x => k))
  (at level 61, c at next level, right associativity).
Notation "c ;; k" := (bind c (fun _ => k))
  (at level 61, right associativity).

Definition emit (e : Event) : Cmd unit :=
  fun m => (tt, mkMachine (lastScreenshot m) (lastElements m) (display m)
                          (captures m) (trace m ++ [e])%list).

Definition captureScreen : Cmd Mat :=
  fun m => (display m (captures m),
            mkMachine (lastScreenshot m) (lastElements m) (display m)
                      (S (captures m)) (trace m ++ [EvCapture])%list).

Definition moveMouse (x y : Z) : Cmd unit := emit (EvMoveMouse x y).

Definition click (x y : Z) (rightClick : bool) : Cmd unit :=
  moveMouse x y ;;
  emit (EvSleep 100) ;;
  let button := if rightClick then RightButton else LeftButton in
  emit (EvButton button true) ;;
  emit (EvSleep 50) ;;
  emit (EvButton button false).

Definition updateScreen : Cmd unit :=
  shot <- captureScreen ;;
  (fun m =>
     let elems := analyzeScreen shot in
     (tt, mkMachine (Some shot) elems (display m) (captures m) (trace m))) ;;
  m <- (fun m => (m, m)) ;;
  emit (EvPrint (MsgDetected (List.length (lastElements m)))).

Definition clickOn (target : string) (rightClick : bool) : Cmd bool :=
  updateScreen ;;
  m <- (fun m => (m, m)) ;;
  match findBestMatch (lastElements m) target with
  | Some (_, elem) =>
      emit (EvPrint (MsgClicking (text elem) (px (center elem))
                                 (py (center elem)))) ;;
      click (px (center elem)) (py (center elem)) rightClick ;;
      ret true
  | None =>
      emit (EvPrint (MsgNotFound target)) ;;
      ret false
  end.

End Vision.

(* ------------------------------------------------------------------ *)
(** ** Specification-level notions *)

(** Invariant of the loop of [findBestMatch]: what [best] and
    [bestScore] hold with respect to the whole vector [all]. *)
Definition best_ok (query : string) (all : list UIElement)
    (best : option ElemPtr) (bestScore : float) : Prop :=
  match best with
  | None => bestScore = zero
  | Some (j, e) =>
      nth_error all j = Some e /\ score e query = bestScore /\
      forall k e', (k < j)%nat -> nth_error all k = Some e' ->
                   leb bestScore (score e' query) = false
  end.

(** The selection law: the element at position [i] clears the threshold,
    no element scores strictly higher, and every earlier element scores
    strictly lower (or is unordered). *)
Definition selected (elements : list UIElement) (query : string)
    (i : nat) (e : UIElement) : Prop :=
  nth_error elements i = Some e /\
  ltb f0_3 (score e query) = true /\
  forall k e', nth_error elements k = Some e' ->
    ltb (score e query) (score e' query) = false /\
    ((k < i)%nat -> leb (score e query) (score e' query) = false).

(** Substring test through the library's [index]. *)
Definition contains (s x : string) : bool :=
  match index 0 x s with Some _ => true | None => false end.

(** The base score read literally from the specification: the second
    branch counts the characters of the *query* found in the candidate
    text. *)
Definition spec_base_score (candidate query : string) : float :=
  let t := transform tolower candidate in
  let q := transform tolower query in
  if contains t q || contains q t then f0_9
  else div (of_Z (Z.of_nat (count_occurring q t)))
           (of_Z (Z.of_nat (Nat.max (length t) (length q)))).

(** The largest score a synthesized button can reach: similarity 1,
    times 1.2, times 0.7 / 100. *)
Definition button_cap : float :=
  Eval vm_compute in mul (mul f1 f1_2) (div f0_7 f100).

(** The least binary32 above 100/3 and its predecessor. *)
Definition f33_up : float := S754_finite false 8738134 (-18).
Definition f33_down : float := S754_finite false 8738133 (-18).

(** The largest finite binary32. *)
Definition fmax : float := S754_finite false 16777215 104.

(* ------------------------------------------------------------------ *)
(** ** Concrete scenarios *)

(** Scenario B of the specification: empty text, kind Text,
    confidence 95. *)
Definition scenarioB (r : Rect) : UIElement :=
  mkUIElement r EmptyString "text" (of_Z 95).

(** A Text candidate whose text shares every character with the query
    without either containing the other. *)
Definition overlap_elem (c : Z) : UIElement :=
  mkUIElement (mkRect 0 0 50 20) "ab" "text" (of_Z c).

(** Collaborators of a display that shows one button-shaped contour whose
    crop reads "ab" and no words. *)
Definition demo_boxes (_ : unit) : list Rect := [mkRect 10 10 100 30].
Definition demo_no_boxes (_ : unit) : list Rect := [].
Definition demo_no_words (_ : unit) : list OcrWord := [].
Definition demo_crop (_ : unit) (_ : Rect) : option string := Some "ab".

(** An OCR word whose box has no width, and a well-formed one. *)
Definition demo_flat_word (_ : unit) : list OcrWord :=
  [mkOcrWord (Some "OK") (of_Z 90) 10 10 10 20].
Definition demo_word (_ : unit) : list OcrWord :=
  [mkOcrWord (Some "OK") (of_Z 90) 10 10 40 20].

Definition demo_machine : Machine unit :=
  mkMachine unit None [] (fun _ => tt) 0 [].

(** [std::string(n, c)]: [n] copies of [c]. *)
Fixpoint replicate (n : nat) (c : ascii) : string :=
  match n with
  | O => EmptyString
  | S n' => String c (replicate n' c)
  end.

(** A text of 2^31 characters, one more than [INT_MAX]. *)
Definition long_text : string := replicate (Z.to_nat (2 ^ 31)) "a".

(** The float -1. *)
Definition fminus1 : float := S754_finite true 8388608 (-23).

(* ------------------------------------------------------------------ *)
(** ** The rest of ScreenController, SmartVision and SmartMouse *)

(** [isspace] in the C locale: what [std::cin >> word] and [std::ws] skip. *)
Definition isspace (c : ascii) : bool :=
  let n := N_of_ascii c in
  ((n =? 32) || ((9 <=? n) && (n <=? 13)))%N.

Fixpoint skip_ws (s : string) : string :=
  match s with
  | String c s' => if isspace c then skip_ws s' else s
  | EmptyString => s
  end.

(** The characters up to the next white space, and what follows (the
    white space is not consumed). *)
Fixpoint take_word (s : string) : string * string :=
  match s with
  | EmptyString => (EmptyString, EmptyString)
  | String c s' =>
      if isspace c then (EmptyString, s)
      else let '(w, rest) := take_word s' in (String c w, rest)
  end.

(** The characters up to the next newline, and what follows it (the
    newline is consumed and dropped). *)
Fixpoint take_line (s : string) : string * string :=
  match s with
  | EmptyString => (EmptyString, EmptyString)
  | String c s' =>
      if Ascii.eqb c "010"%char then (EmptyString, s')
      else let '(l, rest) := take_line s' in (String c l, rest)
  end.

Fixpoint no_newline (s : string) : bool :=
  match s with
  | EmptyString => true
  | String c s' => negb (Ascii.eqb c "010"%char) && no_newline s'
  end.

(** A text that [std::getline] after [std::ws] returns unchanged: it
    starts with a character that is not white space and holds no
    newline. *)
Definition line_text (t : string) : bool :=
  match t with
  | EmptyString => false
  | String c _ => negb (isspace c) && no_newline t
  end.

(** White space only. *)
Fixpoint all_space (s : string) : bool :=
  match s with
  | EmptyString => true
  | String c s' => isspace c && all_space s'
  end.

(** No white space at all. *)
Fixpoint no_space (s : string) : bool :=
  match s with
  | EmptyString => true
  | String c s' => negb (isspace c) && no_space s'
  end.

(** Where a word read by [std::cin >> word] stops: at the end of the
    input or before white space. *)
Definition word_end (rest : string) : bool :=
  match rest with
  | EmptyString => true
  | String c _ => isspace c
  end.

(** The pointer events of one [ScreenController::click]. *)
Definition click_events (x y : Z) (button : MouseButton) : list Event :=
  [EvMoveMouse x y; EvSleep 100; EvButton button true; EvSleep 50;
   EvButton button false].

Section Console.

Variable Mat : Type.
Variable contourBoxes : Mat -> list Rect.
Variable recognizeWords : Mat -> list OcrWord.
Variable cropText : Mat -> Rect -> option string.
(** [cv::Scalar]. *)
Variable Scalar : Type.
(** [cv::boundingRect] of every external contour of the [cv::inRange]
    mask of the image in HSV, for hue within [tolerance] of the first
    component of [targetColor] and saturation and value in [100, 255]. *)
Variable colorContourBoxes : Mat -> Scalar -> Z -> list Rect.

Definition detectColorRegions (img : Mat) (targetColor : Scalar)
    (tolerance : Z) : list Rect :=
  filter (fun rect => ((20 <? width rect) && (20 <? height rect))%Z)
         (colorContourBoxes img targetColor tolerance).

(** [ScreenController::doubleClick]. *)
Definition doubleClick (x y : Z) : Cmd Mat unit :=
  bind Mat (click Mat x y false) (fun _ =>
  bind Mat (emit Mat (EvSleep 100)) (fun _ =>
  click Mat x y false)).

(** What the process writes or shows, in order: the events of the
    operations above and the output of the operations below. *)
Inductive Output :=
| OutCore (e : Event)
| OutDoubleClicking (t : string)
| OutMoving (t : string)
| OutShow (shot : option Mat) (drawn : list (Rect * string * Point))
| OutBanner
| OutPrompt
| OutUnknown.

(** [SmartMouse] together with [std::cin] (the characters not yet read)
    and everything written so far. *)
Record Console := mkConsole {
  mach : Machine Mat;
  stdin : string;
  log : list Output
}.

Definition IO (A : Type) : Type := Console -> A * Console.

Definition io_ret {A} (a : A) : IO A := fun s => (a, s).
Definition io_bind {A B} (c : IO A) (k : A -> IO B) : IO B :=
  fun s => let '(a, s') := c s in k a s'.

Notation "x <-- c ;;; k" := (io_bind c (fun x => k))
  (at level 61, c at next level, right associativity).
Notation "c ;;; k" := (io_bind c (fun _ => k))
  (at level 61, right associativity).

(** Runs an operation of the machine; the events it appends to the trace
    are appended to the log. *)
Definition lift {A} (c : Cmd Mat A) : IO A :=
  fun s =>
    let '(a, m') := c (mach s) in
    (a, mkConsole m' (stdin s)
          (log s ++ map OutCore
                      (skipn (List.length (trace Mat (mach s)))
                             (trace Mat m')))%list).

Definition say (o : Output) : IO unit :=
  fun s => (tt, mkConsole (mach s) (stdin s) (log s ++ [o])%list).

Definition get_mach : IO (Machine Mat) := fun s => (mach s, s).

Definition doubleClickOn (target : string) : IO bool :=
  lift (updateScreen Mat contourBoxes recognizeWords cropText) ;;;
  m <-- get_mach ;;;
  match findBestMatch (lastElements Mat m) target with
  | Some (_, elem) =>
      say (OutDoubleClicking (text elem)) ;;;
      lift (doubleClick (px (center elem)) (py (center elem))) ;;;
      io_ret true
  | None => io_ret false
  end.

Definition moveTo (target : string) : IO unit :=
  lift (updateScreen Mat contourBoxes recognizeWords cropText) ;;;
  m <-- get_mach ;;;
  match findBestMatch (lastElements Mat m) target with
  | Some (_, elem) =>
      say (OutMoving (text elem)) ;;;
      lift (moveMouse Mat (px (center elem)) (py (center elem)))
  | None => io_ret tt
  end.

(** The rectangle and the label drawn for one element. *)
Definition annotation (elem : UIElement) : Rect * string * Point :=
  (bounds elem,
   (text elem ++ " (" ++ type elem ++ ")")%string,
   mkPoint (rx (bounds elem)) (Int.sub (ry (bounds elem)) 5)).

Definition showDetections : IO unit :=
  m <-- get_mach ;;;
  say (OutShow (lastScreenshot Mat m) (map annotation (lastElements Mat m))).

(** [std::cin >> cmd]: at the end of the input the read fails and [cmd]
    keeps its value. *)
Definition read_word (cmd : string) : IO string :=
  fun s =>
    match skip_ws (stdin s) with
    | EmptyString => (cmd, mkConsole (mach s) EmptyString (log s))
    | String c r =>
        let '(w, rest) := take_word (String c r) in
        (w, mkConsole (mach s) rest (log s))
    end.

(** [std::getline(std::cin >> std::ws, target)]. *)
Definition read_line (target : string) : IO string :=
  fun s =>
    match skip_ws (stdin s) with
    | EmptyString => (target, mkConsole (mach s) EmptyString (log s))
    | String c r =>
        let '(l, rest) := take_line (String c r) in
        (l, mkConsole (mach s) rest (log s))
    end.

(** One command after [cmd] has been read and found different from
    "quit"; returns the new value of [target]. *)
Definition dispatch (cmd target : string) : IO string :=
  if (cmd =? "show")%string then
    lift (updateScreen Mat contourBoxes recognizeWords cropText) ;;;
    showDetections ;;; io_ret target
  else if (cmd =? "refresh")%string then
    lift (updateScreen Mat contourBoxes recognizeWords cropText) ;;;
    io_ret target
  else if (cmd =? "click")%string then
    target <-- read_line target ;;;
    lift (clickOn Mat contourBoxes recognizeWords cropText target false) ;;;
    io_ret target
  else if (cmd =? "right")%string then
    target <-- read_line target ;;;
    lift (clickOn Mat contourBoxes recognizeWords cropText target true) ;;;
    io_ret target
  else if (cmd =? "double")%string then
    target <-- read_line target ;;;
    doubleClickOn target ;;; io_ret target
  else if (cmd =? "move")%string then
    target <-- read_line target ;;;
    moveTo target ;;; io_ret target
  else
    say OutUnknown ;;; io_ret target.

(** The [while (true)] loop of [commandMode]; [None] when [fuel]
    iterations did not reach the [break]. *)
Fixpoint commandMode_loop (fuel : nat) (cmd target : string) (s : Console)
    : option Console :=
  match fuel with
  | O => None
  | S fuel' =>
      let '(_, s) := say OutPrompt s in
      let '(cmd, s) := read_word cmd s in
      if (cmd =? "quit")%string then Some s
      else
        let '(target, s) := dispatch cmd target s in
        commandMode_loop fuel' cmd target s
  end.

Definition commandMode (fuel : nat) (s : Console) : option Console :=
  let '(_, s) := say OutBanner s in
  commandMode_loop fuel EmptyString EmptyString s.

End Console.

(** A console over the demonstration display. *)
Definition demo_console (input : string) : Console unit :=
  mkConsole unit demo_machine input [].

(* ================================================================== *)
(** * Properties *)

Local Open Scope Z_scope.

(* ------------------------------------------------------------------ *)
(** ** binary32 arithmetic

    The Standard Library specifies the operations ([SFmul], [SFdiv],
    [binary_normalize]) but proves nothing about them.  What the claims
    need is that rounding is monotone.  The route: [binary_round_aux] on
    the floor and location of a rational [N / D * 2 ^ ex] yields the float
    whose encoding [bits] is [(E + 149) * 2 ^ 23 + rne N (D * 2 ^ (E - ex))]
    for the rounding exponent [E] ([bra_spec]); that expression grows with
    the rational ([round32_mono]); and [SFcompare] on non-negative valid
    floats is the comparison of encodings ([compare_bits]). *)

Module B32Facts.

Lemma fexp32_eq e : fexp32 e = Z.max (e - 24) (-149).
Proof. reflexivity. Qed.

(** *** Number of binary digits *)

Lemma digits2_pos_bounds p :
  2 ^ (Z.pos (digits2_pos p) - 1) <= Z.pos p < 2 ^ Z.pos (digits2_pos p).
Proof.
  induction p as [p IH | p IH | ]; cbn [digits2_pos].
  - rewrite Pos2Z.inj_succ, Z.pow_succ_r by lia.
    replace (Z.succ (Z.pos (digits2_pos p)) - 1) with (Z.succ (Z.pos (digits2_pos p) - 1)) by lia.
    rewrite Z.pow_succ_r by lia. lia.
  - rewrite Pos2Z.inj_succ, Z.pow_succ_r by lia.
    replace (Z.succ (Z.pos (digits2_pos p)) - 1) with (Z.succ (Z.pos (digits2_pos p) - 1)) by lia.
    rewrite Z.pow_succ_r by lia. lia.
  - cbn. lia.
Qed.

Lemma Zdigits2_bounds m :
  0 < m -> 2 ^ (Zdigits2 m - 1) <= m < 2 ^ Zdigits2 m.
Proof.
  destruct m; try lia. intros _. apply digits2_pos_bounds.
Qed.

Lemma Zdigits2_nonneg m : 0 <= m -> 0 <= Zdigits2 m.
Proof. destruct m; cbn; lia. Qed.

Lemma Zdigits2_pos m : 0 < m -> 0 < Zdigits2 m.
Proof. destruct m; cbn; lia. Qed.

Lemma pow2_lt_inv a b : 0 <= b -> 2 ^ a < 2 ^ b -> a < b.
Proof.
  intros Hb H. destruct (Z_lt_le_dec a b) as [|Hle]; [assumption|].
  exfalso. assert (2 ^ b <= 2 ^ a) by (apply Z.pow_le_mono_r; lia). lia.
Qed.

Lemma Zdigits2_unique m d :
  0 < d -> 2 ^ (d - 1) <= m < 2 ^ d -> Zdigits2 m = d.
Proof.
  intros Hd [Hlo Hhi].
  assert (0 < m) by (assert (0 < 2 ^ (d - 1)) by (apply Z.pow_pos_nonneg; lia); lia).
  pose proof (Zdigits2_bounds m H) as [Blo Bhi].
  pose proof (Zdigits2_pos m H) as Hp.
  assert (Zdigits2 m - 1 < d) by (apply pow2_lt_inv; lia).
  assert (d - 1 < Zdigits2 m) by (apply pow2_lt_inv; lia).
  lia.
Qed.

Lemma Zdigits2_le_iff m d :
  0 <= m -> 0 <= d -> (Zdigits2 m <= d <-> m < 2 ^ d).
Proof.
  intros Hm Hd. destruct (Z.eq_dec m 0) as [->|Hne].
  - cbn. split; intros _; [apply Z.pow_pos_nonneg|]; lia.
  - assert (0 < m) by lia.
    pose proof (Zdigits2_bounds m H) as [Blo Bhi].
    pose proof (Zdigits2_pos m H) as Hp. split; intros Hx.
    + assert (2 ^ Zdigits2 m <= 2 ^ d) by (apply Z.pow_le_mono_r; lia). lia.
    + assert (Zdigits2 m - 1 < d) by (apply pow2_lt_inv; lia). lia.
Qed.

(** *** Locations and right shifts *)

Lemma repr_of_loc N D : repr N D (shr_record_of_loc (N / D) (loc_of_rem N D)).
Proof.
  unfold repr. destruct (loc_of_rem N D) as [|[]]; cbn; auto.
Qed.

(** One right shift halves the scale and keeps the representation. *)
Lemma repr_shr_1 N D mrs :
  0 <= N -> 0 < D -> repr N D mrs -> repr N (D * 2) (shr_1 mrs).
Proof.
  intros HN HD [Hm Hl].
  assert (Hq : N / (D * 2) = (N / D) / 2) by (rewrite Z.div_div by lia; reflexivity).
  assert (Hr : N mod (D * 2) = N mod D + D * ((N / D) mod 2))
    by (rewrite Z.rem_mul_r by lia; reflexivity).
  pose proof (Z.mod_pos_bound N D HD) as Hb.
  pose proof (Z.div_pos N D HN HD) as Hq0.
  pose proof (Z.div_mod (N / D) 2 ltac:(lia)) as Hdm.
  pose proof (Z.mod_pos_bound (N / D) 2 ltac:(lia)) as Hb2.
  unfold repr, loc_of_rem. rewrite Hr, Hq.
  destruct mrs as [m r s]. cbn [shr_m] in Hm. subst m.
  unfold loc_of_rem in Hl. cbn [loc_of_shr_record] in Hl.
  assert (Hs : orb r s = negb (N mod D =? 0)).
  { destruct (N mod D =? 0); destruct r, s; cbn in *; congruence. }
  clear Hl. cbn [shr_1]. rewrite Hs.
  destruct (N / D) as [|q|q] eqn:Eq; try lia.
  - cbn [shr_m loc_of_shr_record]. rewrite Z.mod_0_l by lia.
    split; [reflexivity|].
    replace (N mod D + D * 0) with (N mod D) by lia.
    destruct (N mod D =? 0) eqn:E0; cbn [negb]; [reflexivity|].
    apply Z.eqb_neq in E0. f_equal. symmetry. apply Z.compare_lt_iff. lia.
  - destruct q as [q|q|]; cbn [shr_m loc_of_shr_record].
    + split; [rewrite Pos2Z.inj_xI; apply Z.div_unique with 1; lia|].
      assert (Z.pos q~1 mod 2 = 1)
        by (rewrite Pos2Z.inj_xI; symmetry; apply Z.mod_unique with (Z.pos q); lia).
      rewrite H.
      destruct (N mod D =? 0) eqn:E0; cbn [negb].
      * apply Z.eqb_eq in E0. rewrite E0.
        replace (0 + D * 1 =? 0) with false by (symmetry; apply Z.eqb_neq; lia).
        f_equal. symmetry. apply Z.compare_eq_iff. lia.
      * apply Z.eqb_neq in E0.
        replace (N mod D + D * 1 =? 0) with false by (symmetry; apply Z.eqb_neq; lia).
        f_equal. symmetry. apply Z.compare_gt_iff. lia.
    + split; [rewrite Pos2Z.inj_xO; apply Z.div_unique with 0; lia|].
      assert (Z.pos q~0 mod 2 = 0)
        by (rewrite Pos2Z.inj_xO; symmetry; apply Z.mod_unique with (Z.pos q); lia).
      rewrite H. replace (N mod D + D * 0) with (N mod D) by lia.
      destruct (N mod D =? 0) eqn:E0; cbn [negb]; [reflexivity|].
      apply Z.eqb_neq in E0. f_equal. symmetry. apply Z.compare_lt_iff. lia.
    + split; [reflexivity|]. change (1 mod 2) with 1.
      destruct (N mod D =? 0) eqn:E0; cbn [negb].
      * apply Z.eqb_eq in E0. rewrite E0.
        replace (0 + D * 1 =? 0) with false by (symmetry; apply Z.eqb_neq; lia).
        f_equal. symmetry. apply Z.compare_eq_iff. lia.
      * apply Z.eqb_neq in E0.
        replace (N mod D + D * 1 =? 0) with false by (symmetry; apply Z.eqb_neq; lia).
        f_equal. symmetry. apply Z.compare_gt_iff. lia.
Qed.

Lemma repr_iter_shr_1 N p : 0 <= N ->
  forall D mrs, 0 < D -> repr N D mrs ->
  repr N (D * 2 ^ Z.pos p) (iter_pos shr_1 p mrs).
Proof.
  intros HN. induction p as [p IH | p IH | ]; intros D mrs HD H; cbn [iter_pos].
  - assert (0 < 2 ^ Z.pos p) by (apply Z.pow_pos_nonneg; lia).
    replace (D * 2 ^ Z.pos p~1) with (((D * 2) * 2 ^ Z.pos p) * 2 ^ Z.pos p).
    + apply IH; [nia|]. apply IH; [lia|]. apply repr_shr_1; assumption.
    + replace (Z.pos p~1) with (1 + Z.pos p + Z.pos p) by lia.
      rewrite !Z.pow_add_r by lia. change (2 ^ 1) with 2. ring.
  - assert (0 < 2 ^ Z.pos p) by (apply Z.pow_pos_nonneg; lia).
    replace (D * 2 ^ Z.pos p~0) with ((D * 2 ^ Z.pos p) * 2 ^ Z.pos p).
    + apply IH; [nia|]. apply IH; assumption.
    + replace (Z.pos p~0) with (Z.pos p + Z.pos p) by lia.
      rewrite !Z.pow_add_r by lia. ring.
  - change (2 ^ 1) with 2. apply repr_shr_1; assumption.
Qed.

Lemma repr_shr N D mrs e n :
  0 <= N -> 0 < D -> 0 <= n -> repr N D mrs ->
  repr N (D * 2 ^ n) (fst (shr mrs e n)) /\ snd (shr mrs e n) = e + n.
Proof.
  intros HN HD Hn H. destruct n as [|p|p]; try lia; cbn [shr fst snd].
  - rewrite Z.mul_1_r, Z.add_0_r. auto.
  - split; [apply repr_iter_shr_1; assumption | reflexivity].
Qed.

(** *** Rounding to nearest, ties to even *)

Lemma rne_cases N D : 0 < D ->
  let M := rne N D in
  (M = N / D /\ (2 * (N mod D) < D \/ 2 * (N mod D) = D /\ Z.even M = true)) \/
  (M = N / D + 1 /\ (D < 2 * (N mod D) \/ 2 * (N mod D) = D /\ Z.even M = true)).
Proof.
  intros HD. cbv zeta. unfold rne, loc_of_rem, round_nearest_even.
  pose proof (Z.mod_pos_bound N D HD) as Hb.
  destruct (N mod D =? 0) eqn:E0.
  - apply Z.eqb_eq in E0. left. split; [reflexivity | lia].
  - destruct (Z.compare_spec (2 * (N mod D)) D) as [Ec|Ec|Ec].
    + destruct (Z.even (N / D)) eqn:Ev.
      * left. auto.
      * right. split; [reflexivity|]. right. split; [assumption|].
        rewrite Z.add_1_r, Z.even_succ, <- Z.negb_even, Ev. reflexivity.
    + left. split; [reflexivity | lia].
    + right. split; [reflexivity | lia].
Qed.

Lemma rne_bounds N D : 0 < D -> N / D <= rne N D <= N / D + 1.
Proof. intros HD. destruct (rne_cases N D HD) as [[-> _]|[-> _]]; lia. Qed.

Lemma rne_exact N D : 0 < D -> N mod D = 0 -> rne N D = N / D.
Proof.
  intros HD H0. unfold rne, loc_of_rem. rewrite H0. reflexivity.
Qed.

(** [|N/D - rne N D| <= 1/2], and a tie goes to an even integer. *)
Lemma rne_near N D : 0 < D ->
  let M := rne N D in
  (2 * M - 1) * D <= 2 * N <= (2 * M + 1) * D /\
  (2 * N = (2 * M - 1) * D \/ 2 * N = (2 * M + 1) * D -> Z.even M = true).
Proof.
  intros HD M.
  pose proof (Z.div_mod N D ltac:(lia)) as Hdm.
  pose proof (Z.mod_pos_bound N D HD) as Hb.
  destruct (rne_cases N D HD) as [[HM Hc]|[HM Hc]]; fold M in HM, Hc;
    (split; [nia|]); intros Ht; destruct Hc as [Hc|[Hc Hev]]; try assumption;
    exfalso; nia.
Qed.

(** Rounding to the nearest integer is monotone on rationals. *)
Lemma rne_mono N D N' D' :
  0 < D -> 0 < D' -> N * D' <= N' * D -> rne N D <= rne N' D'.
Proof.
  intros HD HD' Hle.
  destruct (rne_near N D HD) as [[Hlo _] Hev].
  destruct (rne_near N' D' HD') as [[_ Hhi'] Hev'].
  destruct (Z_le_gt_dec (rne N D) (rne N' D')) as [|Hgt]; [assumption|exfalso].
  set (M := rne N D) in *. set (M' := rne N' D') in *.
  assert (H1 : (2 * M - 1) * D * D' <= 2 * N * D') by nia.
  assert (H2 : 2 * N' * D <= (2 * M' + 1) * D' * D) by nia.
  assert (H3 : (2 * M - 1) * (D * D') <= (2 * M' + 1) * (D * D')) by nia.
  assert (HDD : 0 < D * D') by nia.
  assert (HM : M = M' + 1) by nia.
  assert (E1 : 2 * N * D' = (2 * M - 1) * D * D') by nia.
  assert (E2 : 2 * N' * D = (2 * M' + 1) * D' * D) by nia.
  assert (Z.even M = true) by (apply Hev; left; nia).
  assert (Z.even M' = true) by (apply Hev'; right; nia).
  rewrite HM, Z.add_1_r, Z.even_succ, <- Z.negb_even in H.
  rewrite H0 in H. discriminate.
Qed.

(** *** The encoding of non-negative floats

    [bits x] is the IEEE-754 bit pattern of a non-negative binary32 read as
    an integer; on valid non-negative floats it is strictly monotone. *)

Lemma bounded_inv m e :
  bounded prec emax m e = true ->
  -149 <= e <= 104 /\ Z.pos m < 2 ^ 24 /\ (-149 < e -> 2 ^ 23 <= Z.pos m).
Proof.
  unfold bounded, canonical_mantissa. intros H.
  apply andb_true_iff in H. destruct H as [Hc He].
  apply Z.eqb_eq in Hc. apply Z.leb_le in He.
  change (fexp prec emax) with fexp32 in Hc. rewrite fexp32_eq in Hc.
  change (emax - prec) with 104 in He.
  pose proof (digits2_pos_bounds m) as [Blo Bhi].
  set (d := Z.pos (digits2_pos m)) in *. assert (0 < d) by (unfold d; lia).
  split; [lia|]. split.
  - assert (d <= 24) by lia.
    assert (2 ^ d <= 2 ^ 24) by (apply Z.pow_le_mono_r; lia). lia.
  - intros Hn. assert (d = 24) by lia. rewrite H0 in Blo. exact Blo.
Qed.

Lemma bounded_intro m e :
  -149 <= e <= 104 -> Z.pos m < 2 ^ 24 -> (-149 < e -> 2 ^ 23 <= Z.pos m) ->
  bounded prec emax m e = true.
Proof.
  intros He Hhi Hlo. unfold bounded, canonical_mantissa.
  apply andb_true_iff. split; [|apply Z.leb_le; change (emax - prec) with 104; lia].
  apply Z.eqb_eq. change (fexp prec emax) with fexp32. rewrite fexp32_eq.
  change (Z.pos (digits2_pos m)) with (Zdigits2 (Z.pos m)).
  destruct (Z.eq_dec e (-149)) as [->|Hne].
  - assert (Zdigits2 (Z.pos m) <= 24) by (apply Zdigits2_le_iff; lia). lia.
  - rewrite (Zdigits2_unique (Z.pos m) 24); [lia|lia|].
    split; [apply Hlo; lia | exact Hhi].
Qed.

(** The float that [binary_round_aux] returns for [N / D * 2 ^ ex], through
    its encoding, together with the range of the shifted mantissa. *)
Lemma bra_spec N D ex :
  0 <= N -> 0 < D ->
  let mx := N / D in
  let E := fexp32 (Zdigits2 mx + ex) in
  ex <= E ->
  let Dn := D * 2 ^ (E - ex) in
  let r := binary_round_aux prec emax false mx ex (loc_of_rem N D) in
  nonneg r = true /\
  bits r = Z.min inf_bits ((E + 149) * 2 ^ 23 + rne N Dn) /\
  0 < Dn /\ N / Dn < 2 ^ 24 /\ (-149 < E -> 2 ^ 23 <= N / Dn).
Proof.
  intros HN HD mx E HE Dn r.
  assert (Hmx : 0 <= mx) by (apply Z.div_pos; lia).
  assert (Hn : 0 <= E - ex) by lia.
  assert (Hpn : 0 < 2 ^ (E - ex)) by (apply Z.pow_pos_nonneg; lia).
  assert (HDn : 0 < Dn) by (unfold Dn; nia).
  assert (HE149 : -149 <= E) by (unfold E; rewrite fexp32_eq; lia).
  assert (Hq : N / Dn = mx / 2 ^ (E - ex))
    by (unfold Dn, mx; rewrite Z.div_div by lia; reflexivity).
  pose proof (Zdigits2_nonneg mx Hmx) as Hdg0.
  (* magnitude of the shifted mantissa *)
  assert (Hhi : N / Dn < 2 ^ 24).
  { rewrite Hq. apply Z.div_lt_upper_bound; [lia|].
    rewrite <- Z.pow_add_r by lia.
    apply (Zdigits2_le_iff mx); [lia|lia|].
    unfold E in *. rewrite fexp32_eq in *. lia. }
  assert (Hlo : -149 < E -> 2 ^ 23 <= N / Dn).
  { intros Hn149. rewrite Hq. apply Z.div_le_lower_bound; [lia|].
    rewrite <- Z.pow_add_r by lia.
    assert (Hmx0 : 0 < mx).
    { destruct (Z.eq_dec mx 0) as [E0|]; [|lia]. exfalso.
      unfold E in *. rewrite E0 in *. cbn [Zdigits2] in *.
      rewrite fexp32_eq in *. lia. }
    pose proof (Zdigits2_bounds mx Hmx0) as [Blo _].
    replace (E - ex + 23) with (Zdigits2 mx - 1); [exact Blo|].
    unfold E in *. rewrite fexp32_eq in *. lia. }
  pose proof (rne_bounds N Dn HDn) as HM.
  pose proof (Z.div_pos N Dn HN HDn) as Hq0.
  assert (Hr : r =
    if Z.eq_dec (rne N Dn) (2 ^ 24)
    then (if E + 1 <=? 104 then S754_finite false (2 ^ 23)%positive (E + 1)
          else S754_infinity false)
    else match rne N Dn with
         | 0 => S754_zero false
         | Z.pos m => if E <=? 104 then S754_finite false m E
                      else S754_infinity false
         | Z.neg _ => S754_nan
         end).
  { unfold r, binary_round_aux, shr_fexp.
    change (fexp prec emax) with fexp32. fold mx. fold E.
    destruct (repr_shr N D (shr_record_of_loc mx (loc_of_rem N D)) ex (E - ex)
                HN HD Hn (repr_of_loc N D)) as [[Hm Hl] He'].
    fold Dn in Hm, Hl.
    destruct (shr (shr_record_of_loc mx (loc_of_rem N D)) ex (E - ex))
      as [mrs' e'] eqn:Eshr. cbn [fst snd] in Hm, Hl, He'.
    rewrite Hm, Hl. fold (rne N Dn).
    replace e' with E by lia.
    set (M := rne N Dn) in *.
    destruct (Z.eq_dec M (2 ^ 24)) as [HM24|HM24].
    - rewrite HM24.
      replace (fexp32 (Zdigits2 (2 ^ 24) + E) - E) with 1
        by (rewrite fexp32_eq; change (Zdigits2 (2 ^ 24)) with 25; lia).
      reflexivity.
    - assert (HdM : Zdigits2 M <= 24) by (apply Zdigits2_le_iff; lia).
      assert (Hsh : fexp32 (Zdigits2 M + E) - E <= 0) by (rewrite fexp32_eq; lia).
      replace (shr (shr_record_of_loc M loc_Exact) E (fexp32 (Zdigits2 M + E) - E))
        with (shr_record_of_loc M loc_Exact, E)
        by (destruct (fexp32 (Zdigits2 M + E) - E); [reflexivity | lia | reflexivity]).
      reflexivity. }
  set (M := rne N Dn) in *.
  split; [|split; [|split; [exact HDn | split; assumption]]]; rewrite Hr;
    destruct (Z.eq_dec M (2 ^ 24)) as [HM24|HM24].
  - destruct (E + 1 <=? 104) eqn:Eov; [|reflexivity].
    apply Z.leb_le in Eov. cbn [nonneg negb andb].
    apply bounded_intro; lia.
  - destruct M as [|M1|M1] eqn:EM; try lia; [reflexivity|].
    destruct (E <=? 104) eqn:Eov; [|reflexivity].
    apply Z.leb_le in Eov. cbn [nonneg negb andb].
    apply bounded_intro; lia.
  - destruct (E + 1 <=? 104) eqn:Eov; cbn [bits].
    + apply Z.leb_le in Eov. unfold inf_bits. lia.
    + apply Z.leb_gt in Eov. unfold inf_bits. lia.
  - destruct M as [|M1|M1] eqn:EM; try lia.
    + cbn [bits]. assert (E = -149) by lia. unfold inf_bits. lia.
    + destruct (E <=? 104) eqn:Eov; cbn [bits].
      * apply Z.leb_le in Eov. unfold inf_bits. lia.
      * apply Z.leb_gt in Eov. unfold inf_bits. lia.
Qed.

(** *** Monotonicity of rounding *)

Lemma pow2_pos z : 0 <= z -> 0 < 2 ^ z.
Proof. intros. apply Z.pow_pos_nonneg; lia. Qed.

Lemma pow2_split a b : 0 <= a -> 0 <= b -> 2 ^ (a + b) = 2 ^ a * 2 ^ b.
Proof. intros. apply Z.pow_add_r; assumption. Qed.

Lemma dle_intro m1 e1 m2 e2 t :
  t <= e1 -> t <= e2 -> m1 * 2 ^ (e1 - t) <= m2 * 2 ^ (e2 - t) ->
  dle m1 e1 m2 e2.
Proof.
  intros H1 H2 H u Hu1 Hu2.
  destruct (Z_le_gt_dec u t) as [Hut|Hut].
  - replace (e1 - u) with ((e1 - t) + (t - u)) by lia.
    replace (e2 - u) with ((e2 - t) + (t - u)) by lia.
    rewrite !pow2_split by lia.
    pose proof (pow2_pos (t - u) ltac:(lia)). nia.
  - replace (e1 - t) with ((e1 - u) + (u - t)) in H by lia.
    replace (e2 - t) with ((e2 - u) + (u - t)) in H by lia.
    rewrite !pow2_split in H by lia.
    pose proof (pow2_pos (u - t) ltac:(lia)) as Hp.
    rewrite !Z.mul_assoc in H.
    apply Z.mul_le_mono_pos_r in H; assumption.
Qed.

Lemma round32_spec N D ex :
  ready N D ex ->
  let E := fexp32 (Zdigits2 (N / D) + ex) in
  let Dn := D * 2 ^ (E - ex) in
  nonneg (round32 N D ex) = true /\
  bits (round32 N D ex) = Z.min inf_bits ((E + 149) * 2 ^ 23 + rne N Dn) /\
  0 < Dn /\ N / Dn < 2 ^ 24 /\ (-149 < E -> 2 ^ 23 <= N / Dn).
Proof. intros (HN & HD & HE). apply bra_spec; assumption. Qed.

Lemma scale_same N D N' D' pa pn pa' pn' :
  0 < pa -> 0 < pn -> 0 < pa' -> 0 < pn' ->
  pa * pn = pa' * pn' ->
  N * D' * pa <= N' * D * pa' ->
  N * (D' * pn') <= N' * (D * pn).
Proof.
  intros Hpa Hpn Hpa' Hpn' HP Hle.
  assert (HPpos : 0 < pa * pn) by (apply Z.mul_pos_pos; assumption).
  apply (Z.mul_le_mono_pos_r _ _ (pa * pn) HPpos).
  replace (N * (D' * pn') * (pa * pn)) with (N * D' * pa * (pn * pn')) by ring.
  replace (N' * (D * pn) * (pa * pn)) with (N' * D * pa' * (pn * pn'))
    by (rewrite HP; ring).
  apply Z.mul_le_mono_nonneg_r; [|exact Hle].
  apply Z.lt_le_incl, Z.mul_pos_pos; assumption.
Qed.

Lemma scale_apart N D N' D' pa pn pa' pn' pk :
  0 < D -> 0 < D' -> 0 < pa -> 0 < pn -> 0 < pa' -> 0 < pn' -> 0 < pk ->
  pa * pn = 2 * pk * (pa' * pn') ->
  2 ^ 23 * (D * pn) <= N ->
  N' < 2 ^ 24 * (D' * pn') ->
  N * D' * pa <= N' * D * pa' ->
  False.
Proof.
  intros HD HD' Hpa Hpn Hpa' Hpn' Hpk HP H1 H2 Hle.
  assert (HX : 0 < D * D' * (pa' * pn')) by (repeat apply Z.mul_pos_pos; assumption).
  assert (A : 2 ^ 23 * (D * pn) * (D' * pa) <= N * (D' * pa)).
  { apply Z.mul_le_mono_nonneg_r; [|exact H1].
    apply Z.lt_le_incl, Z.mul_pos_pos; assumption. }
  assert (B : N' * (D * pa') < 2 ^ 24 * (D' * pn') * (D * pa')).
  { apply Z.mul_lt_mono_pos_r; [|exact H2]. apply Z.mul_pos_pos; assumption. }
  assert (C : 2 ^ 23 * (D * pn) * (D' * pa) < 2 ^ 24 * (D' * pn') * (D * pa')) by lia.
  replace (2 ^ 23 * (D * pn) * (D' * pa)) with (2 ^ 23 * (D * D') * (pa * pn)) in C by ring.
  rewrite HP in C.
  replace (2 ^ 23 * (D * D') * (2 * pk * (pa' * pn')))
    with (D * D' * (pa' * pn') * (2 ^ 24 * pk)) in C
    by (change (2 ^ 24) with (2 ^ 23 * 2); ring).
  replace (2 ^ 24 * (D' * pn') * (D * pa'))
    with (D * D' * (pa' * pn') * 2 ^ 24) in C by ring.
  apply Z.mul_lt_mono_pos_l in C; [lia | exact HX].
Qed.

(** Rounding is monotone: a smaller rational rounds to a smaller float. *)
Lemma round32_mono N D ex N' D' ex' :
  ready N D ex -> ready N' D' ex' ->
  dle (N * D') ex (N' * D) ex' ->
  bits (round32 N D ex) <= bits (round32 N' D' ex').
Proof.
  intros R R' Hle.
  pose proof (round32_spec N D ex R) as (_ & Hb & HDn & Hhi & Hlo).
  pose proof (round32_spec N' D' ex' R') as (_ & Hb' & HDn' & Hhi' & Hlo').
  destruct R as (HN & HD & HE). destruct R' as (HN' & HD' & HE').
  cbv zeta in *.
  set (E := fexp32 (Zdigits2 (N / D) + ex)) in *.
  set (E' := fexp32 (Zdigits2 (N' / D') + ex')) in *.
  set (Dn := D * 2 ^ (E - ex)) in *. set (Dn' := D' * 2 ^ (E' - ex')) in *.
  rewrite Hb, Hb'. apply Z.min_le_compat_l.
  assert (HE149 : -149 <= E) by (unfold E; rewrite fexp32_eq; lia).
  assert (HE149' : -149 <= E') by (unfold E'; rewrite fexp32_eq; lia).
  pose proof (rne_bounds N Dn HDn) as HM.
  pose proof (rne_bounds N' Dn' HDn') as HM'.
  set (t := Z.min ex ex').
  specialize (Hle t ltac:(lia) ltac:(lia)).
  pose proof (pow2_pos (ex - t) ltac:(lia)) as Hpa.
  pose proof (pow2_pos (ex' - t) ltac:(lia)) as Hpa'.
  pose proof (pow2_pos (E - ex) ltac:(lia)) as Hpn.
  pose proof (pow2_pos (E' - ex') ltac:(lia)) as Hpn'.
  destruct (Z.lt_trichotomy E E') as [Hlt|[Heq|Hgt]].
  - specialize (Hlo' ltac:(lia)). lia.
  - assert (Hm : rne N Dn <= rne N' Dn'); [|lia].
    apply rne_mono; try assumption. unfold Dn, Dn'.
    apply (scale_same N D N' D' (2 ^ (ex - t)) _ (2 ^ (ex' - t))); try assumption.
    rewrite <- !pow2_split by lia. f_equal. lia.
  - exfalso. specialize (Hlo ltac:(lia)).
    pose proof (pow2_pos (E - E' - 1) ltac:(lia)) as Hpk.
    apply (scale_apart N D N' D' (2 ^ (ex - t)) (2 ^ (E - ex)) (2 ^ (ex' - t))
             (2 ^ (E' - ex')) (2 ^ (E - E' - 1))); try assumption.
    + replace (2 ^ (ex - t) * 2 ^ (E - ex)) with (2 ^ (E - t))
        by (rewrite <- pow2_split by lia; f_equal; lia).
      replace (2 ^ (ex' - t) * 2 ^ (E' - ex')) with (2 ^ (E' - t))
        by (rewrite <- pow2_split by lia; f_equal; lia).
      replace (E - t) with (1 + (E - E' - 1) + (E' - t)) by lia.
      rewrite !pow2_split by lia. reflexivity.
    + fold Dn. pose proof (Z.mul_div_le N Dn HDn). 
      assert (2 ^ 23 * Dn <= Dn * (N / Dn))
        by (rewrite (Z.mul_comm Dn); apply Z.mul_le_mono_nonneg_r; lia).
      lia.
    + fold Dn'. pose proof (Z.mul_succ_div_gt N' Dn' HDn').
      assert (Dn' * Z.succ (N' / Dn') <= Dn' * 2 ^ 24)
        by (apply Z.mul_le_mono_nonneg_l; lia).
      lia.
Qed.

(** *** Comparison through the encoding *)

(** On non-negative valid floats [SFcompare] compares encodings. *)
Lemma compare_bits x y :
  nonneg x = true -> nonneg y = true ->
  SFcompare x y = Some (bits x ?= bits y).
Proof.
  intros Hx Hy.
  destruct x as [[]| [] | |[] mx ex]; try discriminate;
  destruct y as [[]| [] | |[] my ey]; try discriminate;
  cbn [nonneg negb andb] in Hx, Hy; cbn [SFcompare bits];
  try (apply bounded_inv in Hx; destruct Hx as (Hxe & Hxh & Hxl));
  try (apply bounded_inv in Hy; destruct Hy as (Hye & Hyh & Hyl));
  unfold inf_bits; f_equal; symmetry;
  try reflexivity;
  try (apply Z.compare_lt_iff; lia);
  try (apply Z.compare_gt_iff; lia).
  destruct (Z.compare_spec ex ey) as [He|He|He].
  - subst ey. rewrite Z.add_compare_mono_l. reflexivity.
  - apply Z.compare_lt_iff. specialize (Hyl ltac:(lia)). lia.
  - apply Z.compare_gt_iff. specialize (Hxl ltac:(lia)). lia.
Qed.

Lemma ltb_bits x y :
  nonneg x = true -> nonneg y = true -> ltb x y = (bits x <? bits y).
Proof.
  intros Hx Hy. unfold ltb, SFltb. rewrite compare_bits by assumption.
  unfold Z.ltb. destruct (bits x ?= bits y); reflexivity.
Qed.

Lemma leb_bits x y :
  nonneg x = true -> nonneg y = true -> leb x y = (bits x <=? bits y).
Proof.
  intros Hx Hy. unfold leb, SFleb. rewrite compare_bits by assumption.
  unfold Z.leb. destruct (bits x ?= bits y); reflexivity.
Qed.

(** *** Operations on positive finite floats *)

Lemma pos_finite_nonneg x : pos_finite x = true -> nonneg x = true.
Proof. destruct x as [| | |[] m e]; try discriminate. auto. Qed.

Lemma fin_nonneg_nonneg x : fin_nonneg x = true -> nonneg x = true.
Proof. destruct x as [[]| | |[] m e]; try discriminate; auto. Qed.

Lemma pos_finite_bits x : pos_finite x = true -> 0 < bits x < inf_bits.
Proof.
  destruct x as [| | |[] m e]; try discriminate. cbn [pos_finite bits].
  intros H. apply bounded_inv in H. unfold inf_bits. lia.
Qed.

Lemma nonneg_pos_finite x :
  nonneg x = true -> 0 < bits x < inf_bits -> pos_finite x = true.
Proof.
  destruct x as [[]|[]| |[] m e]; cbn [nonneg bits negb andb pos_finite];
    try discriminate; unfold inf_bits; try lia. auto.
Qed.

Lemma nonneg_fin_nonneg x :
  nonneg x = true -> bits x < inf_bits -> fin_nonneg x = true.
Proof.
  destruct x as [[]|[]| |[] m e]; cbn [nonneg bits negb andb fin_nonneg];
    try discriminate; unfold inf_bits; try lia; auto.
Qed.

Lemma fin_nonneg_cases x :
  fin_nonneg x = true -> x = zero \/ pos_finite x = true.
Proof.
  destruct x as [[]| | |[] m e]; try discriminate; cbn; auto.
Qed.

Lemma dle_of_bits m e m' e' :
  bounded prec emax m e = true -> bounded prec emax m' e' = true ->
  bits (S754_finite false m e) <= bits (S754_finite false m' e') ->
  dle (Z.pos m) e (Z.pos m') e'.
Proof.
  intros B B' Hb. cbn [bits] in Hb.
  apply bounded_inv in B. destruct B as (He & Hhi & Hlo).
  apply bounded_inv in B'. destruct B' as (He' & Hhi' & Hlo').
  destruct (Z.lt_trichotomy e e') as [Hlt|[Heq|Hgt]].
  - apply (dle_intro _ _ _ _ e); try lia.
    rewrite Z.sub_diag, Z.pow_0_r, Z.mul_1_r.
    specialize (Hlo' ltac:(lia)).
    assert (2 ^ 1 <= 2 ^ (e' - e)) by (apply Z.pow_le_mono_r; lia).
    change (2 ^ 1) with 2 in H. nia.
  - subst e'. apply (dle_intro _ _ _ _ e); try lia.
    rewrite Z.sub_diag, Z.pow_0_r. lia.
  - exfalso. specialize (Hlo ltac:(lia)). lia.
Qed.

Lemma dle_mul a ea a' ea' b eb b' eb' :
  0 <= a -> 0 <= b -> 0 <= a' -> 0 <= b' ->
  dle a ea a' ea' -> dle b eb b' eb' ->
  dle (a * b) (ea + eb) (a' * b') (ea' + eb').
Proof.
  intros Ha Hb Ha' Hb' H1 H2.
  set (t1 := Z.min ea ea'). set (t2 := Z.min eb eb').
  specialize (H1 t1 ltac:(lia) ltac:(lia)).
  specialize (H2 t2 ltac:(lia) ltac:(lia)).
  apply (dle_intro _ _ _ _ (t1 + t2)); try lia.
  replace (ea + eb - (t1 + t2)) with ((ea - t1) + (eb - t2)) by lia.
  replace (ea' + eb' - (t1 + t2)) with ((ea' - t1) + (eb' - t2)) by lia.
  rewrite !pow2_split by lia.
  pose proof (pow2_pos (ea - t1) ltac:(lia)).
  pose proof (pow2_pos (eb - t2) ltac:(lia)).
  pose proof (pow2_pos (ea' - t1) ltac:(lia)).
  pose proof (pow2_pos (eb' - t2) ltac:(lia)).
  replace (a * b * (2 ^ (ea - t1) * 2 ^ (eb - t2)))
    with ((a * 2 ^ (ea - t1)) * (b * 2 ^ (eb - t2))) by ring.
  replace (a' * b' * (2 ^ (ea' - t1) * 2 ^ (eb' - t2)))
    with ((a' * 2 ^ (ea' - t1)) * (b' * 2 ^ (eb' - t2))) by ring.
  apply Z.mul_le_mono_nonneg; nia.
Qed.

Lemma Zdigits2_lower m k : 0 <= k -> 2 ^ k <= m -> k + 1 <= Zdigits2 m.
Proof.
  intros Hk Hm. destruct (Z_le_gt_dec (k + 1) (Zdigits2 m)) as [|Hgt]; [assumption|].
  exfalso. pose proof (pow2_pos k Hk).
  assert (m < 2 ^ k) by (apply Zdigits2_le_iff; lia). lia.
Qed.

Lemma round32_exact N ex :
  round32 N 1 ex = binary_round_aux prec emax false N ex loc_Exact.
Proof.
  unfold round32, loc_of_rem. rewrite Z.div_1_r, Z.mod_1_r. reflexivity.
Qed.

(** **** Multiplication *)

Lemma mul_round32 m1 e1 m2 e2 :
  mul (S754_finite false m1 e1) (S754_finite false m2 e2)
  = round32 (Z.pos m1 * Z.pos m2) 1 (e1 + e2).
Proof. rewrite round32_exact. reflexivity. Qed.

Lemma mul_ready m1 e1 m2 e2 :
  bounded prec emax m1 e1 = true -> bounded prec emax m2 e2 = true ->
  ready (Z.pos m1 * Z.pos m2) 1 (e1 + e2).
Proof.
  intros B1 B2.
  apply bounded_inv in B1. destruct B1 as (He1 & Hhi1 & Hlo1).
  apply bounded_inv in B2. destruct B2 as (He2 & Hhi2 & Hlo2).
  unfold ready. rewrite Z.div_1_r, fexp32_eq.
  split; [lia|]. split; [lia|].
  set (P := Z.pos m1 * Z.pos m2).
  destruct (Z.eq_dec e1 (-149)) as [E1|E1]; destruct (Z.eq_dec e2 (-149)) as [E2|E2].
  - lia.
  - assert (2 ^ 23 <= P) by (unfold P; specialize (Hlo2 ltac:(lia)); nia).
    pose proof (Zdigits2_lower P 23 ltac:(lia) H). lia.
  - assert (2 ^ 23 <= P) by (unfold P; specialize (Hlo1 ltac:(lia)); nia).
    pose proof (Zdigits2_lower P 23 ltac:(lia) H). lia.
  - assert (2 ^ 46 <= P).
    { unfold P. specialize (Hlo1 ltac:(lia)). specialize (Hlo2 ltac:(lia)).
      change (2 ^ 46) with (2 ^ 23 * 2 ^ 23). apply Z.mul_le_mono_nonneg; lia. }
    pose proof (Zdigits2_lower P 46 ltac:(lia) H). lia.
Qed.

Lemma mul_pos_mono x x' y y' :
  pos_finite x = true -> pos_finite x' = true ->
  pos_finite y = true -> pos_finite y' = true ->
  bits x <= bits x' -> bits y <= bits y' ->
  bits (mul x y) <= bits (mul x' y').
Proof.
  destruct x as [| | |[] m1 e1]; try discriminate.
  destruct x' as [| | |[] m1' e1']; try discriminate.
  destruct y as [| | |[] m2 e2]; try discriminate.
  destruct y' as [| | |[] m2' e2']; try discriminate.
  cbn [pos_finite]. intros B1 B1' B2 B2' Hx Hy.
  rewrite !mul_round32.
  apply round32_mono; try (apply mul_ready; assumption).
  rewrite !Z.mul_1_r. apply dle_mul; try lia; apply dle_of_bits; assumption.
Qed.

Lemma mul_nonneg x y :
  fin_nonneg x = true -> fin_nonneg y = true -> nonneg (mul x y) = true.
Proof.
  destruct x as [[]| | |[] m1 e1]; try discriminate;
  destruct y as [[]| | |[] m2 e2]; try discriminate;
  cbn [fin_nonneg]; intros B1 B2; try reflexivity.
  rewrite mul_round32. apply round32_spec. apply mul_ready; assumption.
Qed.

(** Monotonicity of the rounded product on non-negative finite floats. *)
Lemma mul_mono x x' y y' :
  fin_nonneg x = true -> fin_nonneg x' = true ->
  fin_nonneg y = true -> fin_nonneg y' = true ->
  bits x <= bits x' -> bits y <= bits y' ->
  bits (mul x y) <= bits (mul x' y').
Proof.
  intros Fx Fx' Fy Fy' Hx Hy.
  assert (N0 : 0 <= bits (mul x' y')).
  { pose proof (mul_nonneg x' y' Fx' Fy') as Hn.
    destruct (mul x' y') as [| | |s m e]; cbn [bits]; unfold inf_bits; try lia.
    destruct s; [discriminate|]. cbn [nonneg negb andb] in Hn.
    apply bounded_inv in Hn. lia. }
  destruct (fin_nonneg_cases x Fx) as [->|Px].
  { destruct y as [[]| | |[] ? ?]; try discriminate; exact N0. }
  destruct (fin_nonneg_cases y Fy) as [->|Py].
  { destruct x as [[]| | |[] ? ?]; try discriminate; exact N0. }
  pose proof (pos_finite_bits x Px). pose proof (pos_finite_bits y Py).
  destruct (fin_nonneg_cases x' Fx') as [->|Px']; [cbn [bits zero] in Hx; lia|].
  destruct (fin_nonneg_cases y' Fy') as [->|Py']; [cbn [bits zero] in Hy; lia|].
  apply mul_pos_mono; assumption.
Qed.

(** **** Division *)

Lemma new_location_spec D r :
  0 < D -> 0 <= r < D ->
  new_location D r = if r =? 0 then loc_Exact else loc_Inexact (2 * r ?= D).
Proof.
  intros HD Hr. unfold new_location, new_location_even, new_location_odd.
  destruct (Z.even D) eqn:Ev; [reflexivity|].
  destruct (r =? 0); [reflexivity|]. f_equal.
  assert (Hodd : Z.odd D = true) by (rewrite <- Z.negb_even, Ev; reflexivity).
  apply Z.odd_spec in Hodd. destruct Hodd as [k Hk].
  destruct (Z.compare_spec (2 * r + 1) D); symmetry;
    [apply Z.compare_lt_iff | apply Z.compare_lt_iff | apply Z.compare_gt_iff]; lia.
Qed.

Lemma shift_mantissa m s :
  0 <= s ->
  match s with
  | 0 => m
  | Z.pos _ => Z.shiftl m s
  | Z.neg _ => 0
  end = m * 2 ^ s.
Proof.
  intros Hs. destruct s as [|p|p].
  - change (m = m * 1). lia.
  - apply Z.shiftl_mul_pow2. lia.
  - lia.
Qed.

Lemma div_round32 m1 e1 m2 e2 :
  let e' := div_exp (Z.pos m1) e1 (Z.pos m2) e2 in
  div (S754_finite false m1 e1) (S754_finite false m2 e2)
  = round32 (Z.pos m1 * 2 ^ (e1 - e2 - e')) (Z.pos m2) e'.
Proof.
  intros e'. unfold div, SFdiv, SFdiv_core_binary.
  change (fexp prec emax) with fexp32. fold (div_exp (Z.pos m1) e1 (Z.pos m2) e2).
  fold e'.
  assert (Hs : 0 <= e1 - e2 - e') by (unfold e', div_exp; lia).
  set (s := e1 - e2 - e') in *.
  rewrite (shift_mantissa (Z.pos m1) s Hs). set (N := Z.pos m1 * 2 ^ s).
  unfold round32.
  pose proof (Z.mod_pos_bound N (Z.pos m2) ltac:(lia)) as Hb.
  unfold loc_of_rem. rewrite <- (new_location_spec (Z.pos m2) (N mod Z.pos m2)) by lia.
  unfold Z.div, Z.modulo.
  destruct (Z.div_eucl N (Z.pos m2)) as [q r]. reflexivity.
Qed.

Lemma div_ready m1 e1 m2 e2 :
  let e' := div_exp (Z.pos m1) e1 (Z.pos m2) e2 in
  ready (Z.pos m1 * 2 ^ (e1 - e2 - e')) (Z.pos m2) e'.
Proof.
  intros e'.
  assert (Hs : 0 <= e1 - e2 - e') by (unfold e', div_exp; lia).
  set (s := e1 - e2 - e') in *.
  pose proof (pow2_pos s Hs) as Hps.
  unfold ready. split; [nia|]. split; [lia|].
  set (q := Z.pos m1 * 2 ^ s / Z.pos m2).
  assert (Hq0 : 0 <= q) by (apply Z.div_pos; nia).
  pose proof (Zdigits2_bounds (Z.pos m1) ltac:(lia)) as [B1 _].
  pose proof (Zdigits2_bounds (Z.pos m2) ltac:(lia)) as [_ B2].
  pose proof (Zdigits2_pos (Z.pos m1) ltac:(lia)) as Hd1.
  pose proof (Zdigits2_pos (Z.pos m2) ltac:(lia)) as Hd2.
  set (d1 := Zdigits2 (Z.pos m1)) in *. set (d2 := Zdigits2 (Z.pos m2)) in *.
  assert (Hdq : d1 + s - d2 <= Zdigits2 q).
  { pose proof (Zdigits2_nonneg q Hq0).
    destruct (Z_le_gt_dec (d1 + s - d2) 0) as [|Hk]; [lia|].
    assert (2 ^ (d1 + s - d2 - 1) <= q).
    { apply Z.div_le_lower_bound; [lia|].
      assert (Z.pos m2 * 2 ^ (d1 + s - d2 - 1) <= 2 ^ d2 * 2 ^ (d1 + s - d2 - 1))
        by (apply Z.mul_le_mono_nonneg_r; [apply Z.lt_le_incl, pow2_pos|]; lia).
      rewrite <- pow2_split in H0 by lia.
      replace (d2 + (d1 + s - d2 - 1)) with ((d1 - 1) + s) in H0 by lia.
      rewrite pow2_split in H0 by lia.
      assert (2 ^ (d1 - 1) * 2 ^ s <= Z.pos m1 * 2 ^ s)
        by (apply Z.mul_le_mono_nonneg_r; lia).
      lia. }
    pose proof (Zdigits2_lower q (d1 + s - d2 - 1) ltac:(lia) H0). lia. }
  assert (He' : e' = Z.min (Z.max (d1 + e1 - (d2 + e2) - 24) (-149)) (e1 - e2))
    by reflexivity.
  assert (Es : s = e1 - e2 - e') by reflexivity.
  clearbody s e'. rewrite fexp32_eq. lia.
Qed.

(** The rounded quotient is monotone in its numerator. *)
Lemma div_pos_mono_l x x' y :
  pos_finite x = true -> pos_finite x' = true -> pos_finite y = true ->
  bits x <= bits x' -> bits (div x y) <= bits (div x' y).
Proof.
  destruct x as [| | |[] m1 e1]; try discriminate.
  destruct x' as [| | |[] m1' e1']; try discriminate.
  destruct y as [| | |[] m2 e2]; try discriminate.
  cbn [pos_finite]. intros B1 B1' B2 Hx.
  rewrite !div_round32. cbv zeta.
  apply round32_mono; try apply div_ready.
  pose proof (dle_of_bits _ _ _ _ B1 B1' Hx) as Hd.
  set (e' := div_exp (Z.pos m1) e1 (Z.pos m2) e2).
  set (e'' := div_exp (Z.pos m1') e1' (Z.pos m2) e2).
  assert (Hs : 0 <= e1 - e2 - e') by (unfold e', div_exp; lia).
  assert (Hs' : 0 <= e1' - e2 - e'') by (unfold e'', div_exp; lia).
  set (t := Z.min e' e'').
  specialize (Hd (e2 + t) ltac:(lia) ltac:(lia)).
  apply (dle_intro _ _ _ _ t); try lia.
  replace (e1 - (e2 + t)) with ((e1 - e2 - e') + (e' - t)) in Hd by lia.
  replace (e1' - (e2 + t)) with ((e1' - e2 - e'') + (e'' - t)) in Hd by lia.
  rewrite !pow2_split in Hd by lia.
  set (a := 2 ^ (e1 - e2 - e')) in *. set (a' := 2 ^ (e1' - e2 - e'')) in *.
  set (b := 2 ^ (e' - t)) in *. set (b' := 2 ^ (e'' - t)) in *.
  replace (Z.pos m1 * a * Z.pos m2 * b) with (Z.pos m2 * (Z.pos m1 * (a * b))) by ring.
  replace (Z.pos m1' * a' * Z.pos m2 * b') with (Z.pos m2 * (Z.pos m1' * (a' * b'))) by ring.
  apply Z.mul_le_mono_nonneg_l; [lia | exact Hd].
Qed.

Lemma div_pos_nonneg x y :
  pos_finite x = true -> pos_finite y = true -> nonneg (div x y) = true.
Proof.
  destruct x as [| | |[] m1 e1]; try discriminate.
  destruct y as [| | |[] m2 e2]; try discriminate. intros _ _.
  rewrite div_round32. apply round32_spec. apply div_ready.
Qed.

(** A quotient of a smaller by a larger float is at most 1. *)
Lemma div_pos_le_1 x y :
  pos_finite x = true -> pos_finite y = true ->
  bits x <= bits y -> bits (div x y) <= bits f1.
Proof.
  destruct x as [| | |[] m1 e1]; try discriminate.
  destruct y as [| | |[] m2 e2]; try discriminate.
  cbn [pos_finite]. intros B1 B2 Hx.
  assert (H1 : f1 = round32 (2 ^ 23) 1 (-23)) by (vm_compute; reflexivity).
  rewrite H1, div_round32. cbv zeta.
  apply round32_mono; [apply div_ready| |].
  { unfold ready. rewrite Z.div_1_r. vm_compute. repeat split; discriminate. }
  pose proof (dle_of_bits _ _ _ _ B1 B2 Hx) as Hd.
  set (e' := div_exp (Z.pos m1) e1 (Z.pos m2) e2).
  assert (Hs : 0 <= e1 - e2 - e') by (unfold e', div_exp; lia).
  set (t := Z.min e' (-23)).
  specialize (Hd (e2 + t) ltac:(lia) ltac:(lia)).
  apply (dle_intro _ _ _ _ t); try lia.
  replace (e1 - (e2 + t)) with ((e1 - e2 - e') + (e' - t)) in Hd by lia.
  replace (e2 - (e2 + t)) with (23 + (-23 - t)) in Hd by lia.
  rewrite !pow2_split in Hd by lia.
  rewrite Z.mul_1_r. nia.
Qed.

(** **** Conversion from integers *)

Lemma Zdigits2_shift m k :
  0 < m -> 0 <= k -> Zdigits2 (m * 2 ^ k) = Zdigits2 m + k.
Proof.
  intros Hm Hk. pose proof (Zdigits2_bounds m Hm) as [Blo Bhi].
  pose proof (Zdigits2_pos m Hm). pose proof (pow2_pos k Hk).
  apply Zdigits2_unique; [lia|].
  replace (Zdigits2 m + k - 1) with ((Zdigits2 m - 1) + k) by lia.
  rewrite !pow2_split by lia. nia.
Qed.

Lemma of_Z_round32 p :
  exists k, 0 <= k /\
    of_Z (Z.pos p) = round32 (Z.pos p * 2 ^ k) 1 (- k) /\
    ready (Z.pos p * 2 ^ k) 1 (- k).
Proof.
  unfold of_Z, binary_normalize, binary_round, shl_align.
  change (fexp prec emax) with fexp32.
  rewrite Z.add_0_r, Z.sub_0_r.
  change (Z.pos (digits2_pos p)) with (Zdigits2 (Z.pos p)).
  destruct (fexp32 (Zdigits2 (Z.pos p))) as [|q|q] eqn:Ef.
  - exists 0. split; [lia|]. rewrite round32_exact, Z.mul_1_r.
    split; [reflexivity|]. unfold ready. rewrite Z.div_1_r, Z.add_0_r, Ef. lia.
  - exists 0. split; [lia|]. rewrite round32_exact, Z.mul_1_r.
    split; [reflexivity|]. unfold ready. rewrite Z.div_1_r, Z.add_0_r, Ef. lia.
  - exists (Z.pos q). split; [lia|]. rewrite round32_exact.
    assert (Hsh : Z.pos (Pos.iter xO p q) = Z.pos p * 2 ^ Z.pos q).
    { change (Pos.iter xO p q) with (shift_pos q p).
      rewrite shift_pos_correct. change (Z.pow_pos 2 q) with (2 ^ Z.pos q). ring. }
    rewrite Hsh. split; [reflexivity|].
    pose proof (pow2_pos (Z.pos q) ltac:(lia)).
    unfold ready. rewrite Z.div_1_r, Zdigits2_shift by lia.
    replace (Zdigits2 (Z.pos p) + Z.pos q + - Z.pos q) with (Zdigits2 (Z.pos p)) by lia.
    rewrite Ef. split; [nia|]. lia.
Qed.

Lemma nonneg_bits x : nonneg x = true -> 0 <= bits x <= inf_bits.
Proof.
  destruct x as [[]|[]| |[] m e]; try discriminate; cbn [bits nonneg negb andb];
    unfold inf_bits; try lia.
  intros H. apply bounded_inv in H. lia.
Qed.

Lemma of_Z_nonneg n : 0 <= n -> nonneg (of_Z n) = true.
Proof.
  intros Hn. destruct n as [|p|p]; try lia; [reflexivity|].
  destruct (of_Z_round32 p) as (k & Hk & -> & R).
  apply round32_spec. exact R.
Qed.

(** Conversion from integers is monotone. *)
Lemma of_Z_mono m n : 0 <= m <= n -> bits (of_Z m) <= bits (of_Z n).
Proof.
  intros [Hm Hmn].
  destruct m as [|p|p]; try lia.
  { apply nonneg_bits, of_Z_nonneg. lia. }
  destruct n as [|q|q]; try lia.
  destruct (of_Z_round32 p) as (k & Hk & -> & R).
  destruct (of_Z_round32 q) as (k' & Hk' & -> & R').
  apply round32_mono; try assumption.
  apply (dle_intro _ _ _ _ (Z.min (- k) (- k'))); try lia.
  rewrite !Z.mul_1_r, <- !Z.mul_assoc, <- !pow2_split by lia.
  replace (k + (- k - Z.min (- k) (- k'))) with (- Z.min (- k) (- k')) by lia.
  replace (k' + (- k' - Z.min (- k) (- k'))) with (- Z.min (- k) (- k')) by lia.
  apply Z.mul_le_mono_nonneg_r; [apply Z.lt_le_incl, pow2_pos|]; lia.
Qed.

(** A positive [int] converts to a positive finite float. *)
Lemma of_Z_pos_finite n :
  0 < n <= Int.max_signed -> pos_finite (of_Z n) = true.
Proof.
  intros Hn. apply nonneg_pos_finite; [apply of_Z_nonneg; lia|].
  pose proof (of_Z_mono 1 n ltac:(lia)) as H1.
  pose proof (of_Z_mono n Int.max_signed ltac:(lia)) as H2.
  change (bits (of_Z 1)) with (bits f1) in H1.
  assert (bits (of_Z Int.max_signed) < inf_bits) by (vm_compute; reflexivity).
  assert (0 < bits f1) by (vm_compute; reflexivity). lia.
Qed.

(** The quotient of two converted integers [0 <= m <= n], [0 < n]. *)
Lemma div_of_Z_unit m n :
  0 <= m <= n -> 0 < n -> m <= Int.max_signed ->
  fin_nonneg (div (of_Z m) (of_Z n)) = true /\
  bits (div (of_Z m) (of_Z n)) <= bits f1.
Proof.
  intros Hm Hn Hmax.
  assert (Hy : nonneg (of_Z n) = true) by (apply of_Z_nonneg; lia).
  assert (Hy1 : bits f1 <= bits (of_Z n)) by (apply (of_Z_mono 1 n); lia).
  assert (H1 : 0 < bits f1 < inf_bits) by (vm_compute; split; reflexivity).
  remember (bits f1) as b1 eqn:Eb1.
  destruct (Z.eq_dec m 0) as [->|Hm0].
  - change (of_Z 0) with zero.
    destruct (of_Z n) as [[]|[]| |[] my ey]; try discriminate;
      cbn [bits] in Hy1; try lia; cbn; lia.
  - assert (Px : pos_finite (of_Z m) = true) by (apply of_Z_pos_finite; lia).
    pose proof (of_Z_mono m n ltac:(lia)) as Hxy.
    pose proof (nonneg_bits _ Hy) as Hyb.
    destruct (Z.eq_dec (bits (of_Z n)) inf_bits) as [Hinf|Hfin].
    + destruct (of_Z n) as [[]|[]| |[] my ey]; try discriminate.
      * destruct (of_Z m) as [| | |[] mx ex]; try discriminate. cbn. lia.
      * cbn [nonneg negb andb] in Hy. apply bounded_inv in Hy.
        cbn [bits] in Hinf. unfold inf_bits in Hinf. lia.
    + assert (Py : pos_finite (of_Z n) = true)
        by (apply nonneg_pos_finite; [assumption | lia]).
      pose proof (div_pos_le_1 _ _ Px Py Hxy) as Hle. rewrite <- Eb1 in Hle.
      split; [|exact Hle].
      apply nonneg_fin_nonneg; [apply div_pos_nonneg; assumption | lia].
Qed.

End B32Facts.

(* ------------------------------------------------------------------ *)
(** ** The order of [SFcompare] *)

Module Order.

(** Away from NaN, [SFcompare] is the lexicographic order of [rank]. *)
Lemma compare_rank x y :
  is_nan x = false -> is_nan y = false ->
  SFcompare x y = Some (lex3 (rank x) (rank y)).
Proof.
  destruct x as [[]|[]| |[] mx ex]; try discriminate;
  destruct y as [[]|[]| |[] my ey]; try discriminate; intros _ _;
  try reflexivity; cbn [SFcompare rank]; unfold lex3; cbn [fst snd]; f_equal.
  change (-1 ?= -1) with Eq. cbv iota.
  rewrite Z.compare_opp. rewrite (Z.compare_antisym ex ey).
  destruct (ex ?= ey); cbn [CompOpp]; reflexivity.
Qed.

Lemma compare_nan x y :
  is_nan x || is_nan y = true -> SFcompare x y = None.
Proof.
  destruct x as [[]|[]| |[] mx ex]; destruct y as [[]|[]| |[] my ey];
    cbn; intros H; try discriminate; reflexivity.
Qed.

Ltac lex3_solve :=
  unfold lex3;
  repeat match goal with
         | |- context [?a ?= ?b] => destruct (Z.compare_spec a b)
         | H : context [?a ?= ?b] |- _ => destruct (Z.compare_spec a b)
         end;
  try discriminate; try reflexivity; try lia.

Lemma lex3_lt_trans a b c : lex3 a b = Lt -> lex3 b c = Lt -> lex3 a c = Lt.
Proof. destruct a as [a1 [a2 a3]], b as [b1 [b2 b3]], c as [c1 [c2 c3]]; cbn [fst snd]; unfold lex3; cbn [fst snd]. intros H1 H2. lex3_solve. Qed.

Lemma lex3_lt_le_trans a b c : lex3 a b = Lt -> lex3 b c <> Gt -> lex3 a c = Lt.
Proof. destruct a as [a1 [a2 a3]], b as [b1 [b2 b3]], c as [c1 [c2 c3]]; unfold lex3; cbn [fst snd]. intros H1 H2. lex3_solve; exfalso; apply H2; reflexivity. Qed.

Lemma lex3_antisym a b : lex3 b a = CompOpp (lex3 a b).
Proof. destruct a as [a1 [a2 a3]], b as [b1 [b2 b3]]; unfold lex3; cbn [fst snd]. lex3_solve. Qed.

Lemma lex3_refl a : lex3 a a = Eq.
Proof. destruct a as [a1 [a2 a3]]; unfold lex3; cbn [fst snd]. rewrite !Z.compare_refl. reflexivity. Qed.

Lemma ltb_true x y : ltb x y = true ->
  is_nan x = false /\ is_nan y = false /\ lex3 (rank x) (rank y) = Lt.
Proof.
  unfold ltb, SFltb. intros H.
  destruct (is_nan x) eqn:Nx; [rewrite compare_nan in H by (rewrite Nx; reflexivity); discriminate|].
  destruct (is_nan y) eqn:Ny; [rewrite compare_nan in H by (rewrite Ny; apply orb_true_r); discriminate|].
  rewrite compare_rank in H by assumption.
  destruct (lex3 (rank x) (rank y)); try discriminate. auto.
Qed.

Lemma ltb_intro x y : is_nan x = false -> is_nan y = false ->
  lex3 (rank x) (rank y) = Lt -> ltb x y = true.
Proof.
  intros Nx Ny H. unfold ltb, SFltb. rewrite compare_rank, H by assumption. reflexivity.
Qed.

Lemma leb_true x y : leb x y = true ->
  is_nan x = false /\ is_nan y = false /\ lex3 (rank x) (rank y) <> Gt.
Proof.
  unfold leb, SFleb. intros H.
  destruct (is_nan x) eqn:Nx; [rewrite compare_nan in H by (rewrite Nx; reflexivity); discriminate|].
  destruct (is_nan y) eqn:Ny; [rewrite compare_nan in H by (rewrite Ny; apply orb_true_r); discriminate|].
  rewrite compare_rank in H by assumption.
  destruct (lex3 (rank x) (rank y)); try discriminate; repeat split; discriminate.
Qed.

Lemma ltb_irrefl x : ltb x x = false.
Proof.
  destruct (ltb x x) eqn:H; [|reflexivity].
  apply ltb_true in H. destruct H as (_ & _ & H). rewrite lex3_refl in H. discriminate.
Qed.

Lemma ltb_trans x y z : ltb x y = true -> ltb y z = true -> ltb x z = true.
Proof.
  intros H1 H2. apply ltb_true in H1, H2.
  destruct H1 as (Nx & Ny & H1), H2 as (_ & Nz & H2).
  apply ltb_intro; try assumption. eapply lex3_lt_trans; eassumption.
Qed.

Lemma ltb_leb_trans x y z : ltb x y = true -> leb y z = true -> ltb x z = true.
Proof.
  intros H1 H2. apply ltb_true in H1. apply leb_true in H2.
  destruct H1 as (Nx & Ny & H1), H2 as (_ & Nz & H2).
  apply ltb_intro; try assumption. eapply lex3_lt_le_trans; eassumption.
Qed.

Lemma leb_not_ltb x y : leb x y = true -> ltb y x = false.
Proof.
  intros H. destruct (ltb y x) eqn:H2; [|reflexivity].
  apply leb_true in H. apply ltb_true in H2.
  destruct H as (_ & _ & H), H2 as (_ & _ & H2).
  rewrite lex3_antisym, H2 in H. exfalso. apply H. reflexivity.
Qed.

Lemma not_leb_ltb x y :
  is_nan x = false -> is_nan y = false -> leb x y = false -> ltb y x = true.
Proof.
  intros Nx Ny H. unfold leb, SFleb in H. rewrite compare_rank in H by assumption.
  apply ltb_intro; try assumption. rewrite lex3_antisym.
  destruct (lex3 (rank x) (rank y)); try discriminate. reflexivity.
Qed.

End Order.

Module B32Bridge.

Import B32Facts Order.

Lemma not_ltb_leb x y :
  is_nan x = false -> is_nan y = false -> ltb x y = false -> leb y x = true.
Proof.
  intros Nx Ny H. unfold ltb, SFltb in H. unfold leb, SFleb.
  rewrite compare_rank in * by assumption. rewrite lex3_antisym.
  destruct (lex3 (rank x) (rank y)); try discriminate; reflexivity.
Qed.

Lemma nonneg_not_nan x : nonneg x = true -> is_nan x = false.
Proof. destruct x; try discriminate; reflexivity. Qed.

(** On valid positive floats the encoding orders the exact values. *)
Lemma to_Q_le_of_bits x y :
  pos_finite x = true -> pos_finite y = true -> bits x <= bits y ->
  (to_Q x <= to_Q y)%Q.
Proof.
  destruct x as [| | |[] m e]; try discriminate.
  destruct y as [| | |[] m' e']; try discriminate.
  cbn [pos_finite]. intros B B' Hb.
  pose proof (dle_of_bits _ _ _ _ B B' Hb) as Hd.
  unfold to_Q, Qle. cbn [Qnum Qden].
  pose proof (pow2_pos (Z.max (- e) 0) ltac:(lia)) as P1.
  pose proof (pow2_pos (Z.max (- e') 0) ltac:(lia)) as P2.
  rewrite !Z2Pos.id by assumption.
  specialize (Hd (- Z.max (- e) 0 - Z.max (- e') 0) ltac:(lia) ltac:(lia)).
  replace (e - (- Z.max (- e) 0 - Z.max (- e') 0))
    with (Z.max e 0 + Z.max (- e') 0) in Hd by lia.
  replace (e' - (- Z.max (- e) 0 - Z.max (- e') 0))
    with (Z.max e' 0 + Z.max (- e) 0) in Hd by lia.
  rewrite !pow2_split in Hd by lia.
  rewrite !Z.mul_assoc in Hd. exact Hd.
Qed.

End B32Bridge.

(* ------------------------------------------------------------------ *)
(** ** Machine integers *)

Module IntFacts.

Lemma wrap_small z : Int.in_range z -> Int.wrap z = z.
Proof.
  unfold Int.in_range, Int.min_signed, Int.max_signed, Int.wrap, Int.modulus.
  intros H. rewrite Z.mod_small by lia. lia.
Qed.

Lemma wrap_add_idem x y : Int.wrap (Int.wrap x + y) = Int.wrap (x + y).
Proof.
  unfold Int.wrap, Int.modulus.
  replace ((x + 2 ^ 31) mod 2 ^ 32 - 2 ^ 31 + y + 2 ^ 31)
    with ((x + 2 ^ 31) mod 2 ^ 32 + y) by lia.
  rewrite Zplus_mod_idemp_l. f_equal. f_equal. lia.
Qed.

Lemma wrap_idem x : Int.wrap (Int.wrap x) = Int.wrap x.
Proof.
  pose proof (wrap_add_idem x 0) as H. rewrite !Z.add_0_r in H. exact H.
Qed.

End IntFacts.

(* ------------------------------------------------------------------ *)
(** ** Strings *)

Local Open Scope string_scope.

Lemma transform_length f s : length (transform f s) = length s.
Proof. induction s as [|c s IH]; cbn; [reflexivity | f_equal; exact IH]. Qed.

Lemma append_empty_r s : s ++ EmptyString = s.
Proof. induction s as [|c s IH]; cbn; [reflexivity | f_equal; exact IH]. Qed.

Lemma append_assoc' s t u : (s ++ t) ++ u = s ++ t ++ u.
Proof. induction s as [|c s IH]; cbn; [reflexivity | f_equal; exact IH]. Qed.

Lemma prefix_iff x s : prefix x s = true <-> exists post, s = x ++ post.
Proof.
  revert s. induction x as [|a x IH]; intros s.
  - split; [intros _; exists s; reflexivity | intros _; destruct s; reflexivity].
  - destruct s as [|b s]; cbn.
    + split; [discriminate | intros [post H]; discriminate].
    + destruct (ascii_dec a b) as [->|Hne].
      * rewrite IH. split; intros [post H]; exists post; [f_equal; exact H | congruence].
      * split; [discriminate | intros [post H]; congruence].
Qed.

Lemma find_empty s : find s EmptyString = Some 0%nat.
Proof. destruct s; reflexivity. Qed.

(** [find] succeeds exactly on substrings. *)
Lemma find_substring s x : not_npos (find s x) = true <-> substring_of x s.
Proof.
  unfold substring_of. induction s as [|c s IH]; cbn [find].
  - destruct (prefix x EmptyString) eqn:Ep.
    + split; [intros _|reflexivity].
      apply prefix_iff in Ep. destruct Ep as [post H].
      exists EmptyString, post. exact H.
    + split; [discriminate|]. intros (pre & post & H).
      destruct pre; [|discriminate]. cbn in H.
      assert (prefix x EmptyString = true) by (apply prefix_iff; exists post; exact H).
      congruence.
  - destruct (prefix x (String c s)) eqn:Ep.
    + split; [intros _|reflexivity].
      apply prefix_iff in Ep. destruct Ep as [post H].
      exists EmptyString, post. exact H.
    + assert (Hn : not_npos (option_map S (find s x)) = not_npos (find s x))
        by (destruct (find s x); reflexivity).
      rewrite Hn, IH. split.
      * intros (pre & post & H). exists (String c pre), post. cbn. f_equal. exact H.
      * intros (pre & post & H). destruct pre as [|d pre].
        -- cbn in H. assert (prefix x (String c s) = true)
             by (apply prefix_iff; exists post; exact H). congruence.
        -- cbn in H. injection H as _ H. exists pre, post. exact H.
Qed.

Lemma find_char_occurs s c : not_npos (find_char s c) = occurs c s.
Proof.
  induction s as [|d s IH]; cbn; [reflexivity|].
  rewrite (Ascii.eqb_sym c d).
  destruct (Ascii.eqb d c); cbn; [reflexivity|].
  rewrite <- IH. destruct (find_char s c); reflexivity.
Qed.

Lemma count_occurring_le s t : (count_occurring s t <= length s)%nat.
Proof.
  induction s as [|c s IH]; cbn; [lia|]. destruct (occurs c t); lia.
Qed.

(** The counter of [textSimilarity] is the count, reduced to an [int]. *)
Lemma count_matches_spec a b : forall acc,
  Int.wrap acc = acc ->
  count_matches a b acc = Int.wrap (acc + Z.of_nat (count_occurring a b)).
Proof.
  induction a as [|c a IH]; intros acc Hacc; cbn [count_matches count_occurring].
  - rewrite Z.add_0_r. symmetry. exact Hacc.
  - rewrite find_char_occurs. destruct (occurs c b).
    + rewrite IH by apply IntFacts.wrap_idem.
      unfold Int.add. rewrite IntFacts.wrap_add_idem. f_equal. lia.
    + rewrite IH by exact Hacc. reflexivity.
Qed.

Lemma count_matches_exact a b :
  (Z.of_nat (length a) <= Int.max_signed)%Z ->
  count_matches a b 0 = Z.of_nat (count_occurring a b).
Proof.
  intros H. rewrite count_matches_spec by reflexivity.
  pose proof (count_occurring_le a b).
  apply IntFacts.wrap_small. unfold Int.in_range, Int.min_signed. cbn [Z.add].
  split; [|lia]. assert (- 2 ^ 31 <= 0)%Z by lia. lia.
Qed.

(* ------------------------------------------------------------------ *)
(** ** Matching *)

Import B32Facts Order B32Bridge.

Lemma substring_branch a b :
  not_npos (find a b) || not_npos (find b a) = true <->
  substring_of b a \/ substring_of a b.
Proof. rewrite orb_true_iff, !find_substring. reflexivity. Qed.

Lemma no_substring_nonempty a b :
  not_npos (find a b) || not_npos (find b a) = false ->
  (0 < length a)%nat /\ (0 < length b)%nat.
Proof.
  intros H. apply orb_false_iff in H. destruct H as [H1 H2].
  destruct a as [|c a]; [rewrite find_empty in H2; discriminate|].
  destruct b as [|d b]; [rewrite find_empty in H1; discriminate|].
  cbn. lia.
Qed.

(** The similarity of a text that fits an [int] counter is a float
    between 0 and 1. *)
Lemma textSimilarity_unit a b :
  (Z.of_nat (length a) <= Int.max_signed)%Z ->
  fin_nonneg (textSimilarity a b) = true /\
  (bits (textSimilarity a b) <= bits f1)%Z.
Proof.
  intros Hlen. unfold textSimilarity.
  set (lowerA := transform tolower a). set (lowerB := transform tolower b).
  destruct (not_npos (find lowerA lowerB) || not_npos (find lowerB lowerA)) eqn:Eb.
  - split; vm_compute; [reflexivity | discriminate].
  - apply no_substring_nonempty in Eb. destruct Eb as [HA HB].
    assert (HlenA : length lowerA = length a) by apply transform_length.
    rewrite count_matches_exact by (rewrite HlenA; exact Hlen).
    pose proof (count_occurring_le lowerA lowerB) as Hc.
    apply div_of_Z_unit; lia.
Qed.

(** Invariant of the loop of [findBestMatch]: [bestScore] is not NaN, no
    element seen so far scores above it, and [best] points to the first
    element that reached it. *)
Lemma findBestMatch_loop_spec query rest :
  forall done i best bestScore,
  i = List.length done ->
  is_nan bestScore = false ->
  Forall (fun e' => ltb bestScore (score e' query) = false) done ->
  best_ok query (done ++ rest) best bestScore ->
  let r := findBestMatch_loop rest query i best bestScore in
  is_nan (snd r) = false /\
  Forall (fun e' => ltb (snd r) (score e' query) = false) (done ++ rest) /\
  best_ok query (done ++ rest) (fst r) (snd r).
Proof.
  induction rest as [|elem rest IH]; intros done i best bestScore Hi Hnan Hall Hbest;
    cbn [findBestMatch_loop].
  - cbn [fst snd]. rewrite app_nil_r in *. auto.
  - cbv zeta. replace (done ++ elem :: rest)%list with ((done ++ [elem]) ++ rest)%list in *
      by (rewrite <- app_assoc; reflexivity).
    destruct (ltb bestScore (score elem query)) eqn:Elt.
    + apply IH.
      * rewrite length_app. cbn. lia.
      * apply ltb_true in Elt. tauto.
      * apply Forall_app. split.
        -- eapply Forall_impl; [|exact Hall]. cbv beta. intros e' He'.
           destruct (ltb (score elem query) (score e' query)) eqn:E2; [|reflexivity].
           rewrite (ltb_trans _ _ _ Elt E2) in He'. discriminate.
        -- constructor; [apply ltb_irrefl | constructor].
      * cbn [best_ok]. split; [|split; [reflexivity|]].
        -- rewrite <- app_assoc. subst i. rewrite nth_error_app2 by lia.
           rewrite Nat.sub_diag. reflexivity.
        -- intros k e' Hk He'. subst i.
           rewrite <- app_assoc, nth_error_app1 in He' by lia.
           apply nth_error_In in He'.
           rewrite Forall_forall in Hall. specialize (Hall e' He').
           destruct (leb (score elem query) (score e' query)) eqn:E2; [|reflexivity].
           rewrite (ltb_leb_trans _ _ _ Elt E2) in Hall. discriminate.
    + apply IH.
      * rewrite length_app. cbn. lia.
      * exact Hnan.
      * apply Forall_app. split; [exact Hall|]. constructor; [exact Elt | constructor].
      * exact Hbest.
Qed.

(** What [findBestMatch] returns. *)
Lemma findBestMatch_spec elements query :
  match findBestMatch elements query with
  | None => Forall (fun e => ltb f0_3 (score e query) = false) elements
  | Some (i, e) => selected elements query i e
  end.
Proof.
  unfold findBestMatch.
  pose proof (findBestMatch_loop_spec query elements [] 0%nat None zero
                eq_refl eq_refl (Forall_nil _) eq_refl) as H.
  cbv zeta in H. cbn [app] in H.
  destruct (findBestMatch_loop elements query 0 None zero) as [best bestScore].
  cbn [fst snd] in H. destruct H as (Hnan & Hall & Hbest).
  destruct (ltb f0_3 bestScore) eqn:Ethr.
  - destruct best as [[i e]|].
    + destruct Hbest as (Hnth & Hs & Hearlier). unfold selected. rewrite Hs.
      split; [exact Hnth|]. split; [exact Ethr|].
      intros k e' He'. split.
      * rewrite Forall_forall in Hall. apply Hall. eapply nth_error_In; exact He'.
      * intros Hk. eapply Hearlier; eassumption.
    + cbn [best_ok] in Hbest. subst bestScore. discriminate.
  - apply Forall_forall. intros e He.
    rewrite Forall_forall in Hall. specialize (Hall e He).
    destruct (ltb f0_3 (score e query)) eqn:E2; [|reflexivity].
    pose proof (ltb_true _ _ E2) as (_ & Ne & _).
    pose proof (not_ltb_leb _ _ Hnan Ne Hall) as Hle.
    rewrite (ltb_leb_trans _ _ _ E2 Hle) in Ethr. discriminate.
Qed.

(** The selection law determines the position. *)
Lemma selected_unique elements query i e i' e' :
  selected elements query i e -> selected elements query i' e' ->
  i = i' /\ e = e'.
Proof.
  intros (Hn & Ht & Hm) (Hn' & Ht' & Hm').
  assert (Hi : i = i').
  { pose proof (ltb_true _ _ Ht) as (_ & N & _).
    pose proof (ltb_true _ _ Ht') as (_ & N' & _).
    destruct (Nat.lt_trichotomy i i') as [Hlt|[Heq|Hgt]]; [|exact Heq|]; exfalso.
    - destruct (Hm' i e Hn) as [_ Hb]. specialize (Hb Hlt).
      destruct (Hm i' e' Hn') as [Ha _].
      rewrite (not_leb_ltb _ _ N' N Hb) in Ha. discriminate.
    - destruct (Hm i' e' Hn') as [_ Hb]. specialize (Hb Hgt).
      destruct (Hm' i e Hn) as [Ha _].
      rewrite (not_leb_ltb _ _ N N' Hb) in Ha. discriminate. }
  subst i'. split; [reflexivity | congruence].
Qed.

Lemma findBestMatch_selected elements query i e :
  findBestMatch elements query = Some (i, e) <-> selected elements query i e.
Proof.
  pose proof (findBestMatch_spec elements query) as H. split.
  - intros E. rewrite E in H. exact H.
  - intros S. destruct (findBestMatch elements query) as [[i' e']|].
    + destruct (selected_unique _ _ _ _ _ _ S H) as [-> ->]. reflexivity.
    + exfalso. destruct S as (Hn & Ht & _).
      rewrite Forall_forall in H. apply nth_error_In in Hn.
      rewrite (H e Hn) in Ht. discriminate.
Qed.

Lemma textSimilarity_empty_l q : textSimilarity EmptyString q = f0_9.
Proof.
  unfold textSimilarity. cbn [transform]. rewrite find_empty.
  rewrite orb_true_r. reflexivity.
Qed.

Lemma textSimilarity_empty_r t : textSimilarity t EmptyString = f0_9.
Proof.
  unfold textSimilarity. cbn [transform]. rewrite find_empty. reflexivity.
Qed.

Lemma findBestMatch_single e query :
  ltb f0_3 (score e query) = true -> findBestMatch [e] query = Some (0%nat, e).
Proof.
  intros H. apply findBestMatch_selected. split; [reflexivity|]. split; [exact H|].
  intros k e' Hk. destruct k as [|k]; cbn in Hk.
  - injection Hk as <-. split; [apply ltb_irrefl | lia].
  - destruct k; discriminate.
Qed.

(** A button with confidence 0.7 scores at most [button_cap]. *)
Lemma button_score_bound r t query :
  (Z.of_nat (length t) <= Int.max_signed)%Z ->
  let e := mkUIElement r t "button" f0_7 in
  fin_nonneg (score e query) = true /\
  (bits (score e query) <= bits button_cap)%Z.
Proof.
  intros Hlen e. unfold score. cbn [text type confidence e].
  change ("button" =? "button") with true. cbv iota.
  destruct (textSimilarity_unit t query Hlen) as [Fs Bs].
  set (sim := textSimilarity t query) in *.
  assert (HK : div f0_7 f100 = S754_finite false 15032385 (-31))
    by (vm_compute; reflexivity).
  rewrite HK. set (K := S754_finite false 15032385 (-31)).
  assert (FK : fin_nonneg K = true) by (vm_compute; reflexivity).
  assert (F1 : fin_nonneg f1 = true) by (vm_compute; reflexivity).
  assert (F12 : fin_nonneg f1_2 = true) by (vm_compute; reflexivity).
  assert (B1 : (bits (mul sim f1_2) <= bits f1_2)%Z).
  { change (bits f1_2) with (bits (mul f1 f1_2)).
    apply mul_mono; try assumption. lia. }
  assert (N1 : fin_nonneg (mul sim f1_2) = true).
  { apply nonneg_fin_nonneg; [apply mul_nonneg; assumption|].
    assert (bits f1_2 < inf_bits)%Z by (vm_compute; reflexivity). lia. }
  assert (B2 : (bits (mul (mul sim f1_2) K) <= bits button_cap)%Z).
  { change (bits button_cap) with (bits (mul f1_2 K)).
    apply mul_mono; try assumption. lia. }
  split; [|exact B2].
  apply nonneg_fin_nonneg; [apply mul_nonneg; assumption|].
  assert (bits button_cap < inf_bits)%Z by (vm_compute; reflexivity). lia.
Qed.

(** A finite confidence above 100/3 is at least the next float up. *)
Lemma above_third c :
  valid c = true -> is_finite c = true -> (100 # 3 < to_Q c)%Q ->
  pos_finite c = true /\ (bits f33_up <= bits c)%Z.
Proof.
  intros Hv Hf Hq.
  assert (Pc : pos_finite c = true).
  { destruct c as [s| | |s m e]; try discriminate.
    destruct s; [|exact Hv]. exfalso.
    unfold to_Q, Qlt in Hq. cbn [Qnum Qden] in Hq.
    pose proof (pow2_pos (Z.max e 0) ltac:(lia)).
    assert (Z.neg m * 2 ^ Z.max e 0 < 0)%Z by nia. lia. }
  split; [exact Pc|].
  destruct (Z_le_gt_dec (bits f33_up) (bits c)) as [|Hgt]; [assumption|exfalso].
  assert (Hle : (bits c <= bits f33_down)%Z).
  { assert (bits f33_up = bits f33_down + 1)%Z by (vm_compute; reflexivity). lia. }
  assert (Pd : pos_finite f33_down = true) by (vm_compute; reflexivity).
  pose proof (to_Q_le_of_bits c f33_down Pc Pd Hle) as H1.
  assert (H2 : (to_Q f33_down < 100 # 3)%Q) by (vm_compute; reflexivity).
  apply (Qlt_irrefl (100 # 3)).
  eapply Qlt_le_trans; [exact Hq|]. eapply Qle_trans; [exact H1|].
  apply Qlt_le_weak. exact H2.
Qed.

Lemma bounded_below_fmax c :
  pos_finite c = true -> (bits c <= bits fmax)%Z.
Proof.
  destruct c as [| | |[] m e]; try discriminate. cbn [pos_finite bits fmax].
  intros H. apply bounded_inv in H. lia.
Qed.

(** With similarity 0.9 a confidence above 100/3 clears the threshold. *)
Lemma text_score_above c :
  valid c = true -> is_finite c = true -> (100 # 3 < to_Q c)%Q ->
  ltb f0_3 (mul f0_9 (div c f100)) = true.
Proof.
  intros Hv Hf Hq. destruct (above_third c Hv Hf Hq) as [Pc Hc].
  assert (P100 : pos_finite f100 = true) by (vm_compute; reflexivity).
  assert (Pup : pos_finite f33_up = true) by (vm_compute; reflexivity).
  assert (Pmax : pos_finite fmax = true) by (vm_compute; reflexivity).
  pose proof (div_pos_mono_l f33_up c f100 Pup Pc P100 Hc) as Hz.
  pose proof (div_pos_mono_l c fmax f100 Pc Pmax P100 (bounded_below_fmax c Pc)) as Hz'.
  pose proof (div_pos_nonneg c f100 Pc P100) as Nz.
  set (z := div c f100) in *.
  assert (Hz0 : div f33_up f100 = S754_finite false 11184812 (-25))
    by (vm_compute; reflexivity).
  rewrite Hz0 in Hz. set (z0 := S754_finite false 11184812 (-25)) in *.
  assert (Fz : fin_nonneg z = true).
  { apply nonneg_fin_nonneg; [exact Nz|].
    assert (bits (div fmax f100) < inf_bits)%Z by (vm_compute; reflexivity). lia. }
  assert (F9 : fin_nonneg f0_9 = true) by (vm_compute; reflexivity).
  assert (Fz0 : fin_nonneg z0 = true) by (vm_compute; reflexivity).
  pose proof (mul_mono f0_9 f0_9 z0 z F9 F9 Fz0 Fz ltac:(lia) Hz) as Hm.
  rewrite ltb_bits; [| vm_compute; reflexivity | apply mul_nonneg; assumption].
  apply Z.ltb_lt.
  assert (bits f0_3 < bits (mul f0_9 z0))%Z by (vm_compute; reflexivity). lia.
Qed.

(* ================================================================== *)
(** * The claims of the specification *)

(** ** C1: the per-candidate score *)

(** C1, as stated, fails: the specification counts the characters of the
    query found in the candidate text, the code counts the characters of
    the candidate text found in the query.  For the text "aab" and the
    query "ca" the code returns 2/3 and the stated formula 1/3. *)
Lemma C1_counterexample :
  ~ (forall candidate query : string,
       textSimilarity candidate query = spec_base_score candidate query).
Proof.
  intros H. specialize (H "aab" "ca"). vm_compute in H. discriminate.
Qed.

(** C1 (amended): after lower-casing, if either string is a substring of
    the other the base score is 0.9; otherwise, for a candidate text that
    fits the [int] counter, it is the number of characters of the
    candidate text, counted with repetition, that occur in the query,
    divided by the larger of the two lengths; the final score is the base
    score times 1.2 for a button, then times confidence / 100. *)
Theorem C1_score_formula (elem : UIElement) (query : string) :
  let t := transform tolower (text elem) in
  let q := transform tolower query in
  let base := textSimilarity (text elem) query in
  (substring_of t q \/ substring_of q t -> base = f0_9) /\
  (~ (substring_of t q \/ substring_of q t) ->
   (Z.of_nat (length (text elem)) <= Int.max_signed)%Z ->
   base = div (of_Z (Z.of_nat (count_occurring t q)))
              (of_Z (Z.of_nat (Nat.max (length t) (length q))))) /\
  score elem query =
    mul (if (type elem =? "button")%string then mul base f1_2 else base)
        (div (confidence elem) f100).
Proof.
  intros t q base. split; [|split; [|reflexivity]].
  - intros H. unfold base, textSimilarity. fold t q.
    replace (not_npos (find t q) || not_npos (find q t)) with true; [reflexivity|].
    symmetry. apply substring_branch. tauto.
  - intros Hn Hlen. unfold base, textSimilarity. fold t q.
    destruct (not_npos (find t q) || not_npos (find q t)) eqn:Eb.
    + exfalso. apply Hn. apply substring_branch in Eb. tauto.
    + rewrite count_matches_exact; [reflexivity|].
      unfold t. rewrite transform_length. exact Hlen.
Qed.

Lemma C1_score_formula_witness :
  textSimilarity "Submit" "submit" = f0_9 /\
  textSimilarity "aab" "ca" = div (of_Z 2) (of_Z 3).
Proof.
  split.
  - apply (proj1 (C1_score_formula (mkUIElement (mkRect 0 0 80 30) "Submit" "button" (of_Z 70)) "submit")).
    left. apply find_substring. reflexivity.
  - apply (proj1 (proj2 (C1_score_formula (mkUIElement (mkRect 0 0 80 30) "aab" "text" (of_Z 70)) "ca"))).
    + intros H. apply substring_branch in H. discriminate H.
    + cbn. unfold Int.max_signed. lia.
Defined.

(** ** C2: Scenario B, the empty candidate text *)

(** C2, as stated, fails: the empty text is a substring of the query, so
    the base score is 0.9, not 0, and the candidate is returned. *)
Lemma C2_counterexample :
  textSimilarity EmptyString "OK" <> zero /\
  findBestMatch [scenarioB (mkRect 0 0 10 10)] "OK" <> None.
Proof.
  split; intros H; vm_compute in H; discriminate.
Qed.

(** C2 (amended): for the candidate of Scenario B (empty text, kind Text,
    confidence 95) and any query, the substring branch applies: the base
    score is 0.9, the final score 0.9 * 0.95 exceeds 0.3, and
    [findBestMatch] returns the candidate. *)
Theorem C2_empty_text_matches (r : Rect) (query : string) :
  textSimilarity EmptyString query = f0_9 /\
  score (scenarioB r) query = mul f0_9 (div (of_Z 95) f100) /\
  ltb f0_3 (score (scenarioB r) query) = true /\
  findBestMatch [scenarioB r] query = Some (0%nat, scenarioB r).
Proof.
  assert (Hs : score (scenarioB r) query = mul f0_9 (div (of_Z 95) f100)).
  { unfold score, scenarioB. cbn [text type confidence].
    rewrite textSimilarity_empty_l. reflexivity. }
  assert (Ht : ltb f0_3 (score (scenarioB r) query) = true)
    by (rewrite Hs; vm_compute; reflexivity).
  split; [apply textSimilarity_empty_l|]. split; [exact Hs|]. split; [exact Ht|].
  apply findBestMatch_single. exact Ht.
Qed.

(** ** C4: the threshold *)

(** C4: [findBestMatch] returns no match exactly when no candidate scores
    above 0.3, and otherwise a candidate of the sequence that scores above
    0.3 and that no candidate outscores; a maximal score of exactly 0.3 is
    no match. *)
Theorem C4_threshold (elements : list UIElement) (query : string) :
  match findBestMatch elements query with
  | None => Forall (fun e => ltb f0_3 (score e query) = false) elements
  | Some (i, e) =>
      nth_error elements i = Some e /\
      ltb f0_3 (score e query) = true /\
      Forall (fun e' => ltb (score e query) (score e' query) = false) elements
  end /\
  (findBestMatch elements query = None <->
   Forall (fun e => ltb f0_3 (score e query) = false) elements) /\
  (score (overlap_elem 30) "ba" = f0_3 /\
   findBestMatch [overlap_elem 30; overlap_elem 20] "ba" = None) /\
  findBestMatch [overlap_elem 31; overlap_elem 20] "ba"
    = Some (0%nat, overlap_elem 31).
Proof.
  pose proof (findBestMatch_spec elements query) as H.
  split; [|split; [|split; [split|]]].
  - destruct (findBestMatch elements query) as [[i e]|]; [|exact H].
    destruct H as (Hn & Ht & Hm). split; [exact Hn|]. split; [exact Ht|].
    apply Forall_forall. intros e' He'.
    apply In_nth_error in He'. destruct He' as [k Hk].
    apply (Hm k e' Hk).
  - destruct (findBestMatch elements query) as [[i e]|].
    + split; [discriminate|]. intros HF. exfalso.
      destruct H as (Hn & Ht & _). rewrite Forall_forall in HF.
      apply nth_error_In in Hn. rewrite (HF e Hn) in Ht. discriminate.
    + split; [intros _; exact H | reflexivity].
  - vm_compute. reflexivity.
  - vm_compute. reflexivity.
  - vm_compute. reflexivity.
Qed.

(** ** C5: selection and tie-break *)

(** C5: [findBestMatch] returns the candidate at position [i] exactly when
    it scores above the threshold, no candidate scores strictly higher and
    every earlier candidate scores strictly lower: among equal maximal
    scores the first wins.  Two candidates that both score 0.5, in the
    order [A; B], yield [A]. *)
Theorem C5_first_maximal_wins (elements : list UIElement) (query : string) :
  (forall i e,
     findBestMatch elements query = Some (i, e) <->
     nth_error elements i = Some e /\
     ltb f0_3 (score e query) = true /\
     forall k e', nth_error elements k = Some e' ->
       ltb (score e query) (score e' query) = false /\
       ((k < i)%nat -> leb (score e query) (score e' query) = false)) /\
  (forall A B,
     score A query = f0_5 -> score B query = f0_5 ->
     findBestMatch [A; B] query = Some (0%nat, A)).
Proof.
  split.
  - intros i e. apply findBestMatch_selected.
  - intros A B HA HB. unfold findBestMatch. cbn [findBestMatch_loop].
    rewrite HA, HB.
    change (ltb zero f0_5) with true. change (ltb f0_5 f0_5) with false.
    reflexivity.
Qed.

Lemma C5_first_maximal_wins_witness :
  score (overlap_elem 50) "ba" = f0_5 /\
  score (mkUIElement (mkRect 200 0 50 20) "AB" "text" (of_Z 50)) "ba" = f0_5 /\
  findBestMatch
    [overlap_elem 50; mkUIElement (mkRect 200 0 50 20) "AB" "text" (of_Z 50)]
    "ba"
  = Some (0%nat, overlap_elem 50).
Proof.
  split; [vm_compute; reflexivity|]. split; [vm_compute; reflexivity|].
  apply (proj2 (C5_first_maximal_wins [] "ba")); vm_compute; reflexivity.
Defined.

(** ** Synthesis *)

Section Synthesis.

Variable Mat : Type.
Variable contourBoxes : Mat -> list Rect.
Variable recognizeWords : Mat -> list OcrWord.
Variable cropText : Mat -> Rect -> option string.

Lemma button_like_inv rect :
  button_like rect = true ->
  (40 < width rect < 400 /\ 20 < height rect < 100 /\
   height rect < width rect)%Z.
Proof.
  unfold button_like. rewrite !andb_true_iff, !Z.ltb_lt. tauto.
Qed.

Lemma detectTextRegions_type img :
  Forall (fun e => type e = "text")
         (detectTextRegions Mat recognizeWords img).
Proof.
  unfold detectTextRegions. induction (recognizeWords img) as [|w ws IH]; cbn.
  - constructor.
  - destruct (word w); cbn; [constructor; [reflexivity|]|]; exact IH.
Qed.

(** The button candidates of [analyzeScreen]: a button-like box, the text
    of its crop, kind "button", confidence 0.7. *)
Lemma analyzeScreen_button screenshot e :
  In e (analyzeScreen Mat contourBoxes recognizeWords cropText screenshot) ->
  type e = "button" ->
  button_like (bounds e) = true /\ confidence e = f0_7 /\
  (text e = EmptyString \/ cropText screenshot (bounds e) = Some (text e)).
Proof.
  unfold analyzeScreen. intros Hin Hty. apply in_app_or in Hin.
  destruct Hin as [Hin|Hin].
  - pose proof (detectTextRegions_type screenshot) as HF.
    rewrite Forall_forall in HF. rewrite (HF e Hin) in Hty. discriminate.
  - apply in_map_iff in Hin. destruct Hin as (rect & <- & Hrect).
    unfold detectButtonRegions in Hrect. apply filter_In in Hrect.
    cbn [bounds confidence text]. split; [tauto|]. split; [reflexivity|].
    destruct (cropText screenshot rect); auto.
Qed.

End Synthesis.

(** ** C3: synthesized buttons never win *)




(** ** C6: positive area *)

(** C6, as stated, fails: [detectTextRegions] copies the box of every OCR
    word without a size test, so a word whose box has equal left and right
    edges becomes a candidate of width 0. *)
Lemma C6_counterexample :
  ~ (forall e,
       In e (analyzeScreen unit demo_no_boxes demo_flat_word demo_crop tt) ->
       (0 < width (bounds e) /\ 0 < height (bounds e))%Z).
Proof.
  intros H.
  destruct (H (mkUIElement (mkRect 10 10 0 10) "OK" "text" (of_Z 90))
              (or_introl eq_refl)) as [Hw _].
  cbn in Hw. lia.
Qed.

(** C6 (amended): every button candidate of [analyzeScreen] has
    width > 40 and height > 20, hence a positive area; a text candidate
    carries the box of its OCR word unfiltered, so all candidates have
    positive width and height when every recognized word has a box with
    [0 <= x1 < x2] and [0 <= y1 < y2] in [int] range. *)
Theorem C6_positive_area
    (Mat : Type) (contourBoxes : Mat -> list Rect)
    (recognizeWords : Mat -> list OcrWord)
    (cropText : Mat -> Rect -> option string) (screenshot : Mat) :
  let elements :=
    analyzeScreen Mat contourBoxes recognizeWords cropText screenshot in
  Forall (fun e => type e = "button" ->
            (40 < width (bounds e) /\ 20 < height (bounds e))%Z) elements /\
  (Forall (fun w => (0 <= x1 w < x2 w /\ x2 w <= Int.max_signed /\
                     0 <= y1 w < y2 w /\ y2 w <= Int.max_signed)%Z)
          (recognizeWords screenshot) ->
   Forall (fun e => (0 < width (bounds e) /\ 0 < height (bounds e))%Z)
          elements).
Proof.
  intros elements. split.
  - apply Forall_forall. intros e Hin Hty.
    destruct (analyzeScreen_button Mat contourBoxes recognizeWords cropText
                screenshot e Hin Hty) as (Hb & _).
    apply button_like_inv in Hb. lia.
  - intros Hw. unfold elements, analyzeScreen. apply Forall_app. split.
    + unfold detectTextRegions.
      induction (recognizeWords screenshot) as [|w ws IH]; cbn; [constructor|].
      inversion Hw as [|? ? Hw1 Hws]; subst.
      apply Forall_app. split; [|apply IH; exact Hws].
      destruct (word w); [|constructor].
      constructor; [|constructor]. cbn [bounds width height].
      unfold Int.sub. unfold Int.max_signed in Hw1.
      rewrite !IntFacts.wrap_small
        by (unfold Int.in_range, Int.min_signed, Int.max_signed; lia).
      lia.
    + apply Forall_forall. intros e Hin.
      apply in_map_iff in Hin. destruct Hin as (rect & <- & Hrect).
      unfold detectButtonRegions in Hrect. apply filter_In in Hrect.
      destruct Hrect as [_ Hb]. apply button_like_inv in Hb.
      cbn [bounds]. lia.
Qed.

Lemma C6_positive_area_witness :
  Forall (fun e => (0 < width (bounds e) /\ 0 < height (bounds e))%Z)
         (analyzeScreen unit demo_boxes demo_word demo_crop tt).
Proof.
  apply (proj2 (C6_positive_area unit demo_boxes demo_word demo_crop tt)).
  repeat constructor; cbn; unfold Int.max_signed; lia.
Defined.

(** ** C7: the region filter *)

(** C7: every rectangle returned by [detectButtonRegions] has
    [40 < width < 400], [20 < height < 100] and [width > height]. *)
Theorem C7_button_regions
    (Mat : Type) (contourBoxes : Mat -> list Rect) (img : Mat) :
  Forall (fun rect => (40 < width rect < 400 /\ 20 < height rect < 100 /\
                       height rect < width rect)%Z)
         (detectButtonRegions Mat contourBoxes img).
Proof.
  apply Forall_forall. intros rect Hin.
  unfold detectButtonRegions in Hin. apply filter_In in Hin.
  apply button_like_inv. tauto.
Qed.

(** ** C8: clickOn *)

Lemma center_exact e :
  Int.in_range (Z.quot (width (bounds e)) 2) ->
  Int.in_range (Z.quot (height (bounds e)) 2) ->
  Int.in_range (rx (bounds e) + Z.quot (width (bounds e)) 2) ->
  Int.in_range (ry (bounds e) + Z.quot (height (bounds e)) 2) ->
  center e = mkPoint (rx (bounds e) + Z.quot (width (bounds e)) 2)
                     (ry (bounds e) + Z.quot (height (bounds e)) 2).
Proof.
  intros Hw Hh Hx Hy. unfold center, Int.add, Int.quot.
  rewrite (IntFacts.wrap_small _ Hw), (IntFacts.wrap_small _ Hh).
  rewrite (IntFacts.wrap_small _ Hx), (IntFacts.wrap_small _ Hy). reflexivity.
Qed.

(** C8: [clickOn] captures a fresh frame, analyzes it and runs
    [findBestMatch] on the fresh candidates.  Without a match it returns
    false and neither moves the pointer nor clicks; with a match it moves
    the pointer to the center of the matched candidate, presses and
    releases the requested button there, and returns true.  The center is
    [(x + width / 2, y + height / 2)] whenever that is in [int] range. *)
Theorem C8_clickOn
    (Mat : Type) (contourBoxes : Mat -> list Rect)
    (recognizeWords : Mat -> list OcrWord)
    (cropText : Mat -> Rect -> option string)
    (m : Machine Mat) (target : string) (rightClick : bool) :
  let shot := display Mat m (captures Mat m) in
  let elems := analyzeScreen Mat contourBoxes recognizeWords cropText shot in
  let button := if rightClick then RightButton else LeftButton in
  let r := clickOn Mat contourBoxes recognizeWords cropText target rightClick m in
  lastScreenshot Mat (snd r) = Some shot /\
  lastElements Mat (snd r) = elems /\
  captures Mat (snd r) = S (captures Mat m) /\
  match findBestMatch elems target with
  | None =>
      fst r = false /\
      trace Mat (snd r) =
        (trace Mat m ++
         [EvCapture; EvPrint (MsgDetected (List.length elems));
          EvPrint (MsgNotFound target)])%list
  | Some (_, elem) =>
      fst r = true /\
      trace Mat (snd r) =
        (trace Mat m ++
         [EvCapture; EvPrint (MsgDetected (List.length elems));
          EvPrint (MsgClicking (text elem) (px (center elem)) (py (center elem)));
          EvMoveMouse (px (center elem)) (py (center elem));
          EvSleep 100;
          EvButton button true; EvSleep 50; EvButton button false])%list /\
      (Int.in_range (Z.quot (width (bounds elem)) 2) ->
       Int.in_range (Z.quot (height (bounds elem)) 2) ->
       Int.in_range (rx (bounds elem) + Z.quot (width (bounds elem)) 2) ->
       Int.in_range (ry (bounds elem) + Z.quot (height (bounds elem)) 2) ->
       center elem =
         mkPoint (rx (bounds elem) + Z.quot (width (bounds elem)) 2)
                 (ry (bounds elem) + Z.quot (height (bounds elem)) 2))
  end.
Proof.
  intros shot elems button r.
  unfold r, clickOn, updateScreen, captureScreen, bind, emit.
  cbn [lastElements lastScreenshot captures display trace fst snd].
  fold shot. fold elems.
  destruct (findBestMatch elems target) as [[i elem]|].
  - unfold click, moveMouse, bind, emit, ret.
    cbn [lastElements lastScreenshot captures display trace fst snd].
    fold button. rewrite <- !app_assoc. cbn [app].
    repeat split; try reflexivity. apply center_exact.
  - unfold bind, emit, ret.
    cbn [lastElements lastScreenshot captures display trace fst snd].
    rewrite <- !app_assoc. cbn [app].
    repeat split; reflexivity.
Qed.

Lemma C8_clickOn_witness :
  fst (clickOn unit demo_boxes demo_word demo_crop "ok" true demo_machine) = true /\
  trace unit (snd (clickOn unit demo_boxes demo_word demo_crop "ok" true demo_machine)) =
    [EvCapture; EvPrint (MsgDetected 2);
     EvPrint (MsgClicking "OK" 25 15); EvMoveMouse 25 15; EvSleep 100;
     EvButton RightButton true; EvSleep 50; EvButton RightButton false] /\
  center (mkUIElement (mkRect 10 10 30 10) "OK" "text" (of_Z 90)) = mkPoint 25 15.
Proof.
  pose proof (C8_clickOn unit demo_boxes demo_word demo_crop demo_machine "ok" true) as H.
  cbv zeta in H. destruct H as (_ & _ & _ & H).
  change (findBestMatch
            (analyzeScreen unit demo_boxes demo_word demo_crop
               (display unit demo_machine (captures unit demo_machine))) "ok")
    with (Some (0%nat, mkUIElement (mkRect 10 10 30 10) "OK" "text" (of_Z 90))) in H.
  destruct H as (Hr & Ht & Hc).
  split; [exact Hr|]. split; [exact Ht|].
  apply Hc; unfold Int.in_range, Int.min_signed, Int.max_signed; cbn; lia.
Defined.

(** ** C9: the empty query *)

(** C9: [textSimilarity t EmptyString] is 0.9 for every text, and with
    the empty query every Text candidate whose confidence is a finite
    float above 100/3 scores above 0.3 and is returned when it is the
    only candidate. *)
Theorem C9_empty_query :
  (forall t, textSimilarity t EmptyString = f0_9) /\
  (forall e,
     type e = "text" ->
     valid (confidence e) = true -> is_finite (confidence e) = true ->
     (100 # 3 < to_Q (confidence e))%Q ->
     ltb f0_3 (score e EmptyString) = true /\
     findBestMatch [e] EmptyString = Some (0%nat, e)).
Proof.
  split; [exact textSimilarity_empty_r|].
  intros e Hty Hv Hf Hq.
  assert (Hs : ltb f0_3 (score e EmptyString) = true).
  { unfold score. rewrite Hty, textSimilarity_empty_r.
    change ("text" =? "button")%string with false. cbv iota.
    apply text_score_above; assumption. }
  split; [exact Hs | apply findBestMatch_single; exact Hs].
Qed.

Lemma C9_empty_query_witness :
  ltb f0_3 (score (mkUIElement (mkRect 0 0 60 20) "Cancel" "text" (of_Z 34)) EmptyString) = true /\
  findBestMatch [mkUIElement (mkRect 0 0 60 20) "Cancel" "text" (of_Z 34)] EmptyString
    = Some (0%nat, mkUIElement (mkRect 0 0 60 20) "Cancel" "text" (of_Z 34)).
Proof.
  apply (proj2 C9_empty_query); vm_compute; reflexivity.
Defined.

(** ** C10: range of the similarity *)

Lemma transform_replicate n :
  transform tolower (replicate n "a") = replicate n "a".
Proof. induction n as [|n IH]; cbn [replicate transform]; [reflexivity|].
  rewrite IH. reflexivity. Qed.

Lemma length_replicate n c : length (replicate n c) = n.
Proof. induction n as [|n IH]; cbn; [reflexivity | f_equal; exact IH]. Qed.

Lemma count_occurring_replicate n : count_occurring (replicate n "a") "ab" = n.
Proof. induction n as [|n IH]; cbn [replicate count_occurring]; [reflexivity|].
  rewrite IH. reflexivity. Qed.

Lemma find_in_replicate n : find (replicate n "a") "ab" = None.
Proof.
  induction n as [|n IH]; [reflexivity|].
  cbn [replicate]. destruct n as [|n].
  - reflexivity.
  - change (find (String "a" (replicate (S n) "a")) "ab")
      with (option_map S (find (replicate (S n) "a") "ab")).
    rewrite IH. reflexivity.
Qed.

Lemma find_replicate_in n : find "ab" (replicate (S (S n)) "a") = None.
Proof. reflexivity. Qed.

(** The similarity of [n >= 2] copies of "a" with "ab": the counter, an
    [int], holds [n] reduced to 32 bits. *)
Lemma textSimilarity_replicate n :
  (2 <= n)%nat ->
  textSimilarity (replicate n "a") "ab" =
    div (of_Z (Int.wrap (Z.of_nat n))) (of_Z (Z.of_nat n)).
Proof.
  intros Hn. unfold textSimilarity. rewrite transform_replicate.
  change (transform tolower "ab") with "ab".
  rewrite find_in_replicate.
  destruct n as [|[|n]]; [lia | lia |].
  rewrite find_replicate_in. cbn [not_npos orb].
  rewrite count_matches_spec by reflexivity.
  rewrite count_occurring_replicate, length_replicate.
  change (length "ab") with 2%nat. rewrite Nat.max_l by lia.
  reflexivity.
Qed.

(** C10, as stated, fails for a text of 2^31 characters or more: the
    counter [matches] is an [int] and is incremented once per matching
    character, so for 2^31 copies of "a" against "ab" it holds -2^31 and
    the result is -2^31 / 2^31 = -1, outside [0, 1]. *)
Lemma C10_counterexample :
  length long_text = Z.to_nat (2 ^ 31) /\
  count_matches long_text "ab" 0 = (- 2 ^ 31)%Z /\
  textSimilarity long_text "ab" = fminus1 /\
  ~ (forall a b : string,
       leb zero (textSimilarity a b) = true /\
       leb (textSimilarity a b) f1 = true).
Proof.
  assert (H2 : (2 <= Z.to_nat (2 ^ 31))%nat) by lia.
  assert (Ht : textSimilarity long_text "ab" = fminus1).
  { unfold long_text. rewrite (textSimilarity_replicate _ H2).
    rewrite Z2Nat.id by lia. vm_compute. reflexivity. }
  split; [apply length_replicate|]. split; [|split; [exact Ht|]].
  - unfold long_text. rewrite count_matches_spec by reflexivity.
    rewrite count_occurring_replicate, Z2Nat.id by lia. reflexivity.
  - intros H. destruct (H long_text "ab") as [H0 _].
    rewrite Ht in H0. vm_compute in H0. discriminate.
Qed.

(** C10 (amended): for a text that fits the [int] counter (at most
    2^31 - 1 characters), [textSimilarity] returns a finite float between
    0 and 1; the counter never exceeds the larger length, and the division
    is reached only when both lower-cased strings are non-empty, so its
    denominator is a float above 0. *)
Theorem C10_similarity_range (a b : string) :
  (Z.of_nat (length a) <= Int.max_signed)%Z ->
  let lowerA := transform tolower a in
  let lowerB := transform tolower b in
  let r := textSimilarity a b in
  is_finite r = true /\ leb zero r = true /\ leb r f1 = true /\
  (0 <= count_matches lowerA lowerB 0
     <= Z.of_nat (Nat.max (length lowerA) (length lowerB)))%Z /\
  (not_npos (find lowerA lowerB) || not_npos (find lowerB lowerA) = false ->
   (0 < length lowerA)%nat /\ (0 < length lowerB)%nat /\
   ltb zero (of_Z (Z.of_nat (Nat.max (length lowerA) (length lowerB)))) = true).
Proof.
  intros Hlen lowerA lowerB r.
  destruct (textSimilarity_unit a b Hlen) as [Fr Br]. fold r in Fr, Br.
  assert (HlenA : length lowerA = length a) by apply transform_length.
  pose proof (fin_nonneg_nonneg r Fr) as Nr.
  split; [destruct r as [[]| | |[] ? ?]; try discriminate; reflexivity|].
  split; [|split; [|split]].
  - rewrite leb_bits by (try assumption; reflexivity).
    apply Z.leb_le. apply (nonneg_bits r Nr).
  - rewrite leb_bits by (try assumption; reflexivity).
    apply Z.leb_le. exact Br.
  - rewrite count_matches_exact by (rewrite HlenA; exact Hlen).
    pose proof (count_occurring_le lowerA lowerB). lia.
  - intros Hb. apply no_substring_nonempty in Hb. destruct Hb as [HA HB].
    split; [exact HA|]. split; [exact HB|].
    set (n := Z.of_nat (Nat.max (length lowerA) (length lowerB))).
    rewrite ltb_bits; [|reflexivity | apply of_Z_nonneg; lia].
    apply Z.ltb_lt. pose proof (of_Z_mono 1 n ltac:(lia)) as H1.
    assert (0 < bits (of_Z 1))%Z by (vm_compute; reflexivity).
    change (bits zero) with 0%Z. lia.
Qed.

Lemma C10_similarity_range_witness :
  leb zero (textSimilarity "aab" "ca") = true /\
  leb (textSimilarity "aab" "ca") f1 = true.
Proof.
  pose proof (C10_similarity_range "aab" "ca") as H. cbv zeta in H.
  assert (Hl : (Z.of_nat (length "aab") <= Int.max_signed)%Z)
    by (vm_compute; discriminate).
  destruct (H Hl) as (_ & H0 & H1 & _). split; assumption.
Defined.

(* ================================================================== *)
(** * Further properties of the code *)

(** ** Scores and confidence *)

Lemma bits_lt_of_to_Q x y :
  pos_finite x = true -> pos_finite y = true ->
  (to_Q x < to_Q y)%Q -> (bits x < bits y)%Z.
Proof.
  intros Px Py Hq.
  destruct (Z_lt_le_dec (bits x) (bits y)) as [|Hle]; [assumption|exfalso].
  pose proof (to_Q_le_of_bits y x Py Px Hle) as H.
  apply (Qlt_irrefl (to_Q x)). eapply Qlt_le_trans; eassumption.
Qed.

Lemma div_zero_l x :
  pos_finite x = true -> div zero x = zero.
Proof. destruct x as [| | |[] m e]; try discriminate; reflexivity. Qed.

(** The rounded quotient by a positive float is monotone on non-negative
    finite numerators. *)
Lemma div_mono_l x x' y :
  fin_nonneg x = true -> fin_nonneg x' = true -> pos_finite y = true ->
  (bits x <= bits x')%Z ->
  nonneg (div x y) = true /\ (bits (div x y) <= bits (div x' y))%Z.
Proof.
  intros Fx Fx' Py Hb.
  destruct (fin_nonneg_cases x Fx) as [->|Px].
  - rewrite div_zero_l by assumption. split; [reflexivity|].
    destruct (fin_nonneg_cases x' Fx') as [->|Px'].
    + rewrite div_zero_l by assumption. cbn. lia.
    + apply (nonneg_bits (div x' y)). apply div_pos_nonneg; assumption.
  - split; [apply div_pos_nonneg; assumption|].
    destruct (fin_nonneg_cases x' Fx') as [->|Px'].
    + pose proof (pos_finite_bits x Px). cbn [bits zero] in Hb. lia.
    + apply div_pos_mono_l; assumption.
Qed.

(** A valid finite confidence divided by 100 is a finite float. *)
Lemma confidence_ratio_finite c :
  fin_nonneg c = true -> fin_nonneg (div c f100) = true.
Proof.
  intros Fc.
  assert (P100 : pos_finite f100 = true) by (vm_compute; reflexivity).
  assert (Fmax : fin_nonneg fmax = true) by (vm_compute; reflexivity).
  assert (Hc : (bits c <= bits fmax)%Z).
  { destruct (fin_nonneg_cases c Fc) as [->|Pc]; [vm_compute; discriminate|].
    apply bounded_below_fmax. exact Pc. }
  destruct (div_mono_l c fmax f100 Fc Fmax P100 Hc) as [N H].
  apply nonneg_fin_nonneg; [exact N|].
  assert (bits (div fmax f100) < inf_bits)%Z by (vm_compute; reflexivity). lia.
Qed.

(** The factor of [score] before the confidence: the similarity, times
    1.2 for a button; it is a finite float of at most 1.2. *)
Lemma boosted_similarity_finite t ty query :
  (Z.of_nat (length t) <= Int.max_signed)%Z ->
  let sim := textSimilarity t query in
  let b := if (ty =? "button")%string then mul sim f1_2 else sim in
  fin_nonneg b = true /\
  (bits b <= bits (if (ty =? "button")%string then f1_2 else f1))%Z.
Proof.
  intros Hlen sim b. destruct (textSimilarity_unit t query Hlen) as [Fs Bs].
  fold sim in Fs, Bs. unfold b. destruct (ty =? "button")%string.
  - assert (F1 : fin_nonneg f1 = true) by (vm_compute; reflexivity).
    assert (F12 : fin_nonneg f1_2 = true) by (vm_compute; reflexivity).
    assert (B1 : (bits (mul sim f1_2) <= bits f1_2)%Z).
    { change (bits f1_2) with (bits (mul f1 f1_2)).
      apply mul_mono; try assumption. lia. }
    split; [|exact B1].
    apply nonneg_fin_nonneg; [apply mul_nonneg; assumption|].
    assert (bits f1_2 < inf_bits)%Z by (vm_compute; reflexivity). lia.
  - split; assumption.
Qed.

(** X4: a higher confidence never lowers the score.  For two candidates
    with the same text and kind, a text that fits the [int] counter and
    valid finite non-negative confidences, the score grows with the
    confidence. *)
Theorem X4_score_monotone_in_confidence (e1 e2 : UIElement) (query : string) :
  text e1 = text e2 -> type e1 = type e2 ->
  (Z.of_nat (length (text e1)) <= Int.max_signed)%Z ->
  fin_nonneg (confidence e1) = true -> fin_nonneg (confidence e2) = true ->
  leb (confidence e1) (confidence e2) = true ->
  leb (score e1 query) (score e2 query) = true.
Proof.
  intros Ht Hty Hlen F1 F2 Hc. unfold score. rewrite <- Ht, <- Hty.
  destruct (boosted_similarity_finite (text e1) (type e1) query Hlen) as [Fb _].
  cbv zeta in Fb.
  set (b := if (type e1 =? "button")%string
            then mul (textSimilarity (text e1) query) f1_2
            else textSimilarity (text e1) query) in *.
  assert (P100 : pos_finite f100 = true) by (vm_compute; reflexivity).
  rewrite leb_bits in Hc by (apply fin_nonneg_nonneg; assumption).
  apply Z.leb_le in Hc.
  destruct (div_mono_l _ _ f100 F1 F2 P100 Hc) as [_ Hz].
  pose proof (confidence_ratio_finite _ F1) as Fz1.
  pose proof (confidence_ratio_finite _ F2) as Fz2.
  rewrite leb_bits by (apply mul_nonneg; assumption).
  apply Z.leb_le. apply mul_mono; try assumption. lia.
Qed.

Lemma X4_score_monotone_in_confidence_witness :
  leb (score (overlap_elem 40) "ba") (score (overlap_elem 80) "ba") = true.
Proof.
  apply (X4_score_monotone_in_confidence (overlap_elem 40) (overlap_elem 80) "ba");
    vm_compute; try reflexivity; discriminate.
Defined.

(** The float 30 and the next float above it. *)
Lemma bits_le_30 c :
  fin_nonneg c = true -> (to_Q c <= 30)%Q -> (bits c <= bits (of_Z 30))%Z.
Proof.
  intros Fc Hq. destruct (fin_nonneg_cases c Fc) as [->|Pc]; [vm_compute; discriminate|].
  assert (Pup : pos_finite (S754_finite false 15728641 (-19)) = true)
    by (vm_compute; reflexivity).
  assert (Hup : (30 < to_Q (S754_finite false 15728641 (-19)))%Q)
    by (vm_compute; reflexivity).
  pose proof (bits_lt_of_to_Q c _ Pc Pup (Qle_lt_trans _ _ _ Hq Hup)) as H.
  assert (bits (S754_finite false 15728641 (-19)) = bits (of_Z 30) + 1)%Z
    by (vm_compute; reflexivity).
  lia.
Qed.

(** X3: a Text candidate whose confidence is at most 30 is never selected,
    whatever its text and the query: its score is at most 0.3. *)
Theorem X3_low_confidence_never_selected (e : UIElement) (query : string) :
  (type e =? "button")%string = false ->
  (Z.of_nat (length (text e)) <= Int.max_signed)%Z ->
  fin_nonneg (confidence e) = true ->
  (to_Q (confidence e) <= 30)%Q ->
  leb (score e query) f0_3 = true /\
  forall elements i, findBestMatch elements query <> Some (i, e).
Proof.
  intros Hty Hlen Fc Hq.
  assert (Hs : fin_nonneg (score e query) = true /\
               (bits (score e query) <= bits f0_3)%Z).
  { unfold score. rewrite Hty.
    destruct (textSimilarity_unit (text e) query Hlen) as [Fs Bs].
    assert (P100 : pos_finite f100 = true) by (vm_compute; reflexivity).
    assert (F30 : fin_nonneg (of_Z 30) = true) by (vm_compute; reflexivity).
    destruct (div_mono_l _ _ f100 Fc F30 P100 (bits_le_30 _ Fc Hq)) as [_ Hz].
    pose proof (confidence_ratio_finite _ Fc) as Fz.
    assert (F1 : fin_nonneg f1 = true) by (vm_compute; reflexivity).
    assert (F03 : fin_nonneg (div (of_Z 30) f100) = true) by (vm_compute; reflexivity).
    pose proof (mul_mono _ f1 _ (div (of_Z 30) f100) Fs F1 Fz F03 Bs Hz) as Hm.
    change (bits (mul f1 (div (of_Z 30) f100))) with (bits f0_3) in Hm.
    split; [|exact Hm].
    apply nonneg_fin_nonneg; [apply mul_nonneg; assumption|].
    assert (bits f0_3 < inf_bits)%Z by (vm_compute; reflexivity). lia. }
  destruct Hs as [Fs Bs].
  assert (N03 : nonneg f0_3 = true) by (vm_compute; reflexivity).
  pose proof (fin_nonneg_nonneg _ Fs) as Ns.
  split.
  - rewrite leb_bits by assumption. apply Z.leb_le. exact Bs.
  - intros elements i Hf. apply findBestMatch_selected in Hf.
    destruct Hf as (_ & Ht & _). rewrite ltb_bits in Ht by assumption.
    apply Z.ltb_lt in Ht. lia.
Qed.

Lemma X3_low_confidence_never_selected_witness :
  leb (score (overlap_elem 30) "ba") f0_3 = true /\
  forall elements i, findBestMatch elements "ba" <> Some (i, overlap_elem 30).
Proof.
  apply (X3_low_confidence_never_selected (overlap_elem 30) "ba");
    vm_compute; try reflexivity; discriminate.
Defined.

(** X2: the acceptance rule of a substring match.  For a Text candidate
    whose lower-cased text contains the lower-cased query, or is contained
    in it, with a valid finite non-negative confidence, the score is above
    0.3 exactly when the confidence is above 100/3. *)
Theorem X2_substring_match_accepted_iff (e : UIElement) (query : string) :
  (type e =? "button")%string = false ->
  substring_of (transform tolower query) (transform tolower (text e)) \/
  substring_of (transform tolower (text e)) (transform tolower query) ->
  fin_nonneg (confidence e) = true ->
  (ltb f0_3 (score e query) = true <-> (100 # 3 < to_Q (confidence e))%Q).
Proof.
  intros Hty Hsub Fc.
  assert (Hsim : textSimilarity (text e) query = f0_9).
  { unfold textSimilarity.
    replace (not_npos (find (transform tolower (text e)) (transform tolower query))
             || not_npos (find (transform tolower query) (transform tolower (text e))))
      with true; [reflexivity|].
    symmetry. apply substring_branch. exact Hsub. }
  unfold score. rewrite Hty, Hsim. split.
  - intros Hs. destruct (Qlt_le_dec (100 # 3) (to_Q (confidence e))) as [|Hle];
      [assumption|exfalso].
    assert (Hb : (bits (confidence e) <= bits f33_down)%Z).
    { destruct (fin_nonneg_cases _ Fc) as [Hz|Pc]; [rewrite Hz; vm_compute; discriminate|].
      assert (Pup : pos_finite f33_up = true) by (vm_compute; reflexivity).
      assert (Hup : (100 # 3 < to_Q f33_up)%Q) by (vm_compute; reflexivity).
      pose proof (bits_lt_of_to_Q _ _ Pc Pup (Qle_lt_trans _ _ _ Hle Hup)) as H.
      assert (bits f33_up = bits f33_down + 1)%Z by (vm_compute; reflexivity). lia. }
    assert (P100 : pos_finite f100 = true) by (vm_compute; reflexivity).
    assert (Fd : fin_nonneg f33_down = true) by (vm_compute; reflexivity).
    destruct (div_mono_l _ _ f100 Fc Fd P100 Hb) as [_ Hz].
    pose proof (confidence_ratio_finite _ Fc) as Fz.
    assert (F9 : fin_nonneg f0_9 = true) by (vm_compute; reflexivity).
    assert (Fzd : fin_nonneg (div f33_down f100) = true) by (vm_compute; reflexivity).
    pose proof (mul_mono f0_9 f0_9 _ (div f33_down f100) F9 F9 Fz Fzd ltac:(lia) Hz) as Hm.
    assert (Hlow : (bits (mul f0_9 (div f33_down f100)) < bits f0_3)%Z)
      by (vm_compute; reflexivity).
    rewrite ltb_bits in Hs; [| vm_compute; reflexivity | apply mul_nonneg; assumption].
    apply Z.ltb_lt in Hs. lia.
  - intros Hq. apply text_score_above; try assumption.
    + destruct (confidence e) as [[]| | |[] m ex]; try discriminate; exact Fc.
    + destruct (confidence e) as [[]| | |[] m ex]; try discriminate; reflexivity.
Qed.

Lemma X2_substring_match_accepted_iff_witness :
  ltb f0_3 (score (mkUIElement (mkRect 0 0 80 30) "Submit form" "text" (of_Z 34))
                  "submit") = true /\
  ltb f0_3 (score (mkUIElement (mkRect 0 0 80 30) "Submit form" "text" (of_Z 33))
                  "submit") = false.
Proof.
  split.
  - apply (X2_substring_match_accepted_iff
             (mkUIElement (mkRect 0 0 80 30) "Submit form" "text" (of_Z 34)) "submit");
      try reflexivity.
    left. apply find_substring. reflexivity.
  - apply not_true_is_false. intros H.
    apply (X2_substring_match_accepted_iff
             (mkUIElement (mkRect 0 0 80 30) "Submit form" "text" (of_Z 33)) "submit")
      in H; try reflexivity.
    + vm_compute in H. discriminate.
    + left. apply find_substring. reflexivity.
Defined.

(** ** Selection over a synthesized set *)

Lemma findBestMatch_ext l1 l2 query :
  (forall i e, selected l1 query i e <-> selected l2 query i e) ->
  findBestMatch l1 query = findBestMatch l2 query.
Proof.
  intros H.
  destruct (findBestMatch l1 query) as [[i e]|] eqn:E1.
  - symmetry. apply findBestMatch_selected, H, findBestMatch_selected. exact E1.
  - destruct (findBestMatch l2 query) as [[i e]|] eqn:E2; [|reflexivity].
    apply findBestMatch_selected, H, findBestMatch_selected in E2. congruence.
Qed.

(** Candidates that do not clear the threshold, appended to a sequence,
    do not change who is selected. *)
Lemma selected_app_low front back query i e :
  (forall e', In e' back -> ltb f0_3 (score e' query) = false) ->
  selected (front ++ back) query i e <-> selected front query i e.
Proof.
  intros Hlow. split.
  - intros (Hn & Ht & Hm).
    assert (Hi : (i < List.length front)%nat).
    { destruct (Nat.lt_ge_cases i (List.length front)) as [|Hge]; [assumption|exfalso].
      rewrite nth_error_app2 in Hn by exact Hge. apply nth_error_In in Hn.
      rewrite (Hlow e Hn) in Ht. discriminate. }
    rewrite nth_error_app1 in Hn by exact Hi.
    split; [exact Hn|]. split; [exact Ht|].
    intros k e' Hk. apply (Hm k e').
    rewrite nth_error_app1; [exact Hk|].
    apply nth_error_Some. rewrite Hk. discriminate.
  - intros (Hn & Ht & Hm).
    assert (Hi : (i < List.length front)%nat)
      by (apply nth_error_Some; rewrite Hn; discriminate).
    split; [rewrite nth_error_app1 by exact Hi; exact Hn|]. split; [exact Ht|].
    intros k e' Hk.
    destruct (Nat.lt_ge_cases k (List.length front)) as [Hlt|Hge].
    + rewrite nth_error_app1 in Hk by exact Hlt. apply (Hm k e' Hk).
    + rewrite nth_error_app2 in Hk by exact Hge. apply nth_error_In in Hk.
      split; [|lia].
      destruct (ltb (score e query) (score e' query)) eqn:E2; [|reflexivity].
      pose proof (Hlow e' Hk) as L.
      rewrite (ltb_trans _ _ _ Ht E2) in L. discriminate.
Qed.

(** X1: button detection never influences the match.  When every crop
    text fits the [int] counter, [findBestMatch] on the candidates of
    [analyzeScreen] returns the same position and element as on the text
    candidates of [detectTextRegions] alone. *)
Theorem X1_buttons_do_not_influence_match
    (Mat : Type) (contourBoxes : Mat -> list Rect)
    (recognizeWords : Mat -> list OcrWord)
    (cropText : Mat -> Rect -> option string)
    (Hlen : forall img rect t, cropText img rect = Some t ->
                               (Z.of_nat (length t) <= Int.max_signed)%Z)
    (screenshot : Mat) (query : string) :
  findBestMatch
    (analyzeScreen Mat contourBoxes recognizeWords cropText screenshot) query
  = findBestMatch (detectTextRegions Mat recognizeWords screenshot) query.
Proof.
  apply findBestMatch_ext. intros i e. unfold analyzeScreen.
  apply selected_app_low. intros e' Hin.
  apply in_map_iff in Hin. destruct Hin as (rect & <- & _).
  assert (Hl : (Z.of_nat (length (match cropText screenshot rect with
                                  | Some t => t
                                  | None => EmptyString
                                  end)) <= Int.max_signed)%Z).
  { destruct (cropText screenshot rect) eqn:Ec; [eapply Hlen; exact Ec|].
    vm_compute. discriminate. }
  destruct (button_score_bound rect _ query Hl) as [Fs Bs]. cbv zeta in Fs, Bs.
  rewrite ltb_bits; [| vm_compute; reflexivity | apply fin_nonneg_nonneg; exact Fs].
  apply Z.ltb_ge.
  assert (bits button_cap < bits f0_3)%Z by (vm_compute; reflexivity). lia.
Qed.

Lemma X1_buttons_do_not_influence_match_witness :
  findBestMatch (analyzeScreen unit demo_boxes demo_word demo_crop tt) "ok"
  = findBestMatch (detectTextRegions unit demo_word tt) "ok".
Proof.
  apply (X1_buttons_do_not_influence_match unit demo_boxes demo_word demo_crop).
  intros img rect t H. injection H as <-. vm_compute. discriminate.
Defined.

(** X6: the order of the candidates decides only between equal scores.
    For two orderings of the same candidates, either both give no match,
    or both give a match and the two winners have equal scores. *)
Theorem X6_order_only_breaks_ties (l l' : list UIElement) (query : string) :
  Permutation l l' ->
  match findBestMatch l query, findBestMatch l' query with
  | None, None => True
  | Some (_, e), Some (_, e') => SFeqb (score e query) (score e' query) = true
  | _, _ => False
  end.
Proof.
  intros HP.
  pose proof (findBestMatch_spec l query) as H.
  pose proof (findBestMatch_spec l' query) as H'.
  destruct (findBestMatch l query) as [[i e]|];
    destruct (findBestMatch l' query) as [[i' e']|]; [| | |exact I].
  - destruct H as (Hn & Ht & Hm). destruct H' as (Hn' & Ht' & Hm').
    assert (Hin : In e l') by (eapply Permutation_in; [exact HP|]; eapply nth_error_In; exact Hn).
    assert (Hin' : In e' l)
      by (eapply Permutation_in; [apply Permutation_sym; exact HP|];
          eapply nth_error_In; exact Hn').
    apply In_nth_error in Hin. destruct Hin as [k Hk].
    apply In_nth_error in Hin'. destruct Hin' as [k' Hk'].
    destruct (Hm k' e' Hk') as [A _]. destruct (Hm' k e Hk) as [B _].
    pose proof (ltb_true _ _ Ht) as (_ & N & _).
    pose proof (ltb_true _ _ Ht') as (_ & N' & _).
    unfold ltb, SFltb in A, B. unfold SFeqb.
    rewrite compare_rank in * by assumption.
    rewrite (lex3_antisym (rank (score e query))) in B.
    destruct (lex3 (rank (score e query)) (rank (score e' query)));
      try discriminate; reflexivity.
  - destruct H as (Hn & Ht & _). rewrite Forall_forall in H'.
    rewrite (H' e) in Ht; [discriminate|].
    eapply Permutation_in; [exact HP|]. eapply nth_error_In; exact Hn.
  - destruct H' as (Hn' & Ht' & _). rewrite Forall_forall in H.
    rewrite (H e') in Ht'; [discriminate|].
    eapply Permutation_in; [apply Permutation_sym; exact HP|].
    eapply nth_error_In; exact Hn'.
Qed.

Lemma X6_order_only_breaks_ties_witness :
  match findBestMatch [overlap_elem 40; overlap_elem 80] "ba",
        findBestMatch [overlap_elem 80; overlap_elem 40] "ba" with
  | None, None => True
  | Some (_, e), Some (_, e') => SFeqb (score e "ba") (score e' "ba") = true
  | _, _ => False
  end.
Proof.
  apply (X6_order_only_breaks_ties [overlap_elem 40; overlap_elem 80]
           [overlap_elem 80; overlap_elem 40] "ba").
  apply perm_swap.
Defined.

(** ** Case and geometry *)

Lemma tolower_idempotent c : tolower (tolower c) = tolower c.
Proof. destruct c as [[] [] [] [] [] [] [] []]; reflexivity. Qed.

Lemma transform_tolower_idempotent s :
  transform tolower (transform tolower s) = transform tolower s.
Proof.
  induction s as [|c s IH]; cbn; [reflexivity|].
  rewrite tolower_idempotent, IH. reflexivity.
Qed.

(** X5: matching ignores letter case.  Replacing the text or the query
    by its lower-case form does not change the similarity; replacing the
    query by its lower-case form does not change the result of
    [findBestMatch]; and replacing the text of every candidate by its
    lower-case form makes [findBestMatch] return the candidate at the same
    position (the same candidate, with its text in lower case), or nothing
    where it returned nothing. *)
Theorem X5_matching_ignores_case (a b : string) :
  let lower (e : UIElement) :=
    mkUIElement (bounds e) (transform tolower (text e)) (type e)
      (confidence e) in
  textSimilarity (transform tolower a) b = textSimilarity a b /\
  textSimilarity a (transform tolower b) = textSimilarity a b /\
  (forall elements,
     findBestMatch elements (transform tolower b) = findBestMatch elements b) /\
  (forall elements,
     findBestMatch (map lower elements) b =
       match findBestMatch elements b with
       | Some (i, e) => Some (i, lower e)
       | None => None
       end).
Proof.
  intros lower.
  assert (Hq : forall t, textSimilarity t (transform tolower b) = textSimilarity t b)
    by (intros t; unfold textSimilarity;
        rewrite transform_tolower_idempotent; reflexivity).
  assert (Ht : forall t q, textSimilarity (transform tolower t) q = textSimilarity t q)
    by (intros t q; unfold textSimilarity;
        rewrite transform_tolower_idempotent; reflexivity).
  split; [apply Ht|]. split; [apply Hq|]. split.
  - intros elements. unfold findBestMatch.
    assert (Hs : forall e, score e (transform tolower b) = score e b)
      by (intros e; unfold score; rewrite Hq; reflexivity).
    assert (Hl : forall l i best bs,
               findBestMatch_loop l (transform tolower b) i best bs
               = findBestMatch_loop l b i best bs).
    { induction l as [|e l IH]; intros i best bs; cbn [findBestMatch_loop];
        [reflexivity|]. rewrite Hs, !IH. reflexivity. }
    rewrite Hl. reflexivity.
  - intros elements. unfold findBestMatch.
    set (L := fun best : option ElemPtr =>
                match best with
                | Some (i, e) => Some (i, lower e)
                | None => None
                end).
    assert (Hs : forall e, score (lower e) b = score e b)
      by (intros e; unfold score, lower; cbn [text type confidence];
          rewrite Ht; reflexivity).
    assert (Hl : forall l i best bs,
               findBestMatch_loop (map lower l) b i (L best) bs
               = (L (fst (findBestMatch_loop l b i best bs)),
                  snd (findBestMatch_loop l b i best bs))).
    { induction l as [|e l IH]; intros i best bs;
        cbn [map findBestMatch_loop fst snd]; [reflexivity|].
      rewrite Hs. destruct (ltb bs (score e b)).
      - apply (IH (S i) (Some (i, e))).
      - apply IH. }
    pose proof (Hl elements 0%nat None zero) as H0.
    change (L None) with (@None ElemPtr) in H0. rewrite H0.
    destruct (findBestMatch_loop elements b 0 None zero) as [best bs].
    cbn [fst snd]. destruct (ltb f0_3 bs); reflexivity.
Qed.

(** X7: the click point lies inside the element.  For a rectangle of
    positive width and height whose corners are in [int] range, [center]
    is a point of the rectangle. *)
Theorem X7_center_inside (e : UIElement) :
  (0 < width (bounds e))%Z -> (0 < height (bounds e))%Z ->
  Int.in_range (rx (bounds e)) -> Int.in_range (ry (bounds e)) ->
  Int.in_range (rx (bounds e) + width (bounds e)) ->
  Int.in_range (ry (bounds e) + height (bounds e)) ->
  (rx (bounds e) <= px (center e) < rx (bounds e) + width (bounds e))%Z /\
  (ry (bounds e) <= py (center e) < ry (bounds e) + height (bounds e))%Z.
Proof.
  intros Hw Hh Hx Hy Hxw Hyh.
  assert (Q : forall w, (0 < w)%Z -> (0 <= Z.quot w 2 < w /\ 2 * Z.quot w 2 <= w)%Z).
  { intros w H0. rewrite Z.quot_div_nonneg by lia.
    pose proof (Z.div_mod w 2 ltac:(lia)).
    pose proof (Z.mod_pos_bound w 2 ltac:(lia)). lia. }
  pose proof (Q _ Hw) as Qw. pose proof (Q _ Hh) as Qh.
  unfold Int.in_range, Int.min_signed, Int.max_signed in *.
  rewrite center_exact
    by (unfold Int.in_range, Int.min_signed, Int.max_signed; lia).
  cbn [px py]. lia.
Qed.

Lemma X7_center_inside_witness :
  (10 <= px (center (mkUIElement (mkRect 10 20 101 31) "OK" "button" f0_7)) < 111)%Z /\
  (20 <= py (center (mkUIElement (mkRect 10 20 101 31) "OK" "button" f0_7)) < 51)%Z.
Proof.
  apply (X7_center_inside (mkUIElement (mkRect 10 20 101 31) "OK" "button" f0_7));
    cbn; unfold Int.in_range, Int.min_signed, Int.max_signed; lia.
Defined.

(** ** Detection *)

(** X8: the text candidates are the recognized words.  The candidates of
    [detectTextRegions] correspond one to one, in order, to the recognized
    words whose text is not null: the n-th candidate has kind "text" and
    the text, the confidence and the box (x1, y1, x2 - x1, y2 - y1) of the
    n-th such word.  Words with a null text are skipped. *)
Theorem X8_text_candidates_are_words
    (Mat : Type) (recognizeWords : Mat -> list OcrWord) (img : Mat) :
  Forall2
    (fun w e =>
       word w = Some (text e) /\ type e = "text" /\ confidence e = conf w /\
       bounds e = mkRect (x1 w) (y1 w) (Int.sub (x2 w) (x1 w))
                         (Int.sub (y2 w) (y1 w)))
    (filter (fun w => match word w with Some _ => true | None => false end)
            (recognizeWords img))
    (detectTextRegions Mat recognizeWords img).
Proof.
  unfold detectTextRegions.
  induction (recognizeWords img) as [|w ws IH]; cbn [flat_map filter].
  - constructor.
  - destruct (word w) as [t|] eqn:Ew.
    + cbn [app]. constructor; [|exact IH].
      cbn [text type confidence bounds]. rewrite Ew. auto.
    + cbn [app]. exact IH.
Qed.

(** X9: [detectColorRegions] returns exactly the bounding boxes that are
    more than 20 pixels wide and more than 20 pixels high: a rectangle is
    returned if and only if it is such a box, so none is invented and none
    that passes the test is dropped. *)
Theorem X9_color_regions
    (Mat Scalar : Type) (colorContourBoxes : Mat -> Scalar -> Z -> list Rect)
    (img : Mat) (targetColor : Scalar) (tolerance : Z) (rect : Rect) :
  In rect (detectColorRegions Mat Scalar colorContourBoxes img targetColor
             tolerance) <->
  In rect (colorContourBoxes img targetColor tolerance) /\
  (20 < width rect)%Z /\ (20 < height rect)%Z.
Proof.
  unfold detectColorRegions. rewrite filter_In, andb_true_iff, !Z.ltb_lt.
  reflexivity.
Qed.

(** ** The controller *)

Section Controller.

Variable Mat : Type.
Variable contourBoxes : Mat -> list Rect.
Variable recognizeWords : Mat -> list OcrWord.
Variable cropText : Mat -> Rect -> option string.

Local Abbreviation analyze := (analyzeScreen Mat contourBoxes recognizeWords cropText).
Local Abbreviation update := (updateScreen Mat contourBoxes recognizeWords cropText).

Lemma skipn_app_length {A} (l l' : list A) :
  skipn (List.length l) (l ++ l') = l'.
Proof. induction l as [|a l IH]; cbn; [reflexivity | exact IH]. Qed.

Lemma updateScreen_run (m : Machine Mat) :
  let shot := display Mat m (captures Mat m) in
  update m =
    (tt, mkMachine Mat (Some shot) (analyze shot) (display Mat m)
           (S (captures Mat m))
           (trace Mat m ++
            [EvCapture; EvPrint (MsgDetected (List.length (analyze shot)))])).
Proof.
  cbv zeta. unfold updateScreen, captureScreen, bind, emit.
  cbn [lastElements lastScreenshot captures display trace].
  rewrite <- app_assoc. reflexivity.
Qed.

Lemma lift_updateScreen_run (s : Console Mat) :
  let m := mach Mat s in
  let shot := display Mat m (captures Mat m) in
  lift Mat update s =
    (tt, mkConsole Mat
           (mkMachine Mat (Some shot) (analyze shot) (display Mat m)
              (S (captures Mat m))
              (trace Mat m ++
               [EvCapture; EvPrint (MsgDetected (List.length (analyze shot)))]))
           (stdin Mat s)
           (log Mat s ++
            [OutCore Mat EvCapture;
             OutCore Mat (EvPrint (MsgDetected (List.length (analyze shot))))])).
Proof.
  cbv zeta. unfold lift. rewrite updateScreen_run. cbv zeta.
  cbn [trace]. rewrite skipn_app_length. reflexivity.
Qed.


Lemma clickOn_run (target : string) (rc : bool) (m : Machine Mat) :
  let shot := display Mat m (captures Mat m) in
  let elems := analyze shot in
  let seen := [EvCapture; EvPrint (MsgDetected (List.length elems))] in
  clickOn Mat contourBoxes recognizeWords cropText target rc m =
    match findBestMatch elems target with
    | Some (_, elem) =>
        (true,
         mkMachine Mat (Some shot) elems (display Mat m) (S (captures Mat m))
           (trace Mat m ++ seen ++
            EvPrint (MsgClicking (text elem) (px (center elem))
                       (py (center elem))) ::
            click_events (px (center elem)) (py (center elem))
              (if rc then RightButton else LeftButton)))
    | None =>
        (false,
         mkMachine Mat (Some shot) elems (display Mat m) (S (captures Mat m))
           (trace Mat m ++ seen ++ [EvPrint (MsgNotFound target)]))
    end.
Proof.
  cbv zeta. unfold clickOn. unfold bind at 1. rewrite updateScreen_run.
  cbv zeta. unfold bind at 1. cbn [lastElements].
  destruct (findBestMatch _ target) as [[i elem]|].
  - cbv [bind click moveMouse emit ret click_events lastScreenshot lastElements display captures trace mach stdin log].
    cbn [lastElements lastScreenshot captures display trace].
    rewrite <- ?app_assoc. cbn [app map]. reflexivity.
  - cbv [bind emit ret lastScreenshot lastElements display captures trace mach stdin log].
    cbn [lastElements lastScreenshot captures display trace].
    rewrite <- ?app_assoc. cbn [app map]. reflexivity.
Qed.

Lemma doubleClick_run (x y : Z) (m : Machine Mat) :
  doubleClick Mat x y m =
    (tt, mkMachine Mat (lastScreenshot Mat m) (lastElements Mat m)
           (display Mat m) (captures Mat m)
           (trace Mat m ++ click_events x y LeftButton ++ EvSleep 100 ::
            click_events x y LeftButton)).
Proof.
  cbv [doubleClick bind click moveMouse emit click_events lastScreenshot lastElements display captures trace mach stdin log].
  cbn [lastElements lastScreenshot captures display trace].
  rewrite <- ?app_assoc. cbn [app map]. reflexivity.
Qed.

Lemma doubleClickOn_run (target : string) (s : Console Mat) :
  let m := mach Mat s in
  let shot := display Mat m (captures Mat m) in
  let elems := analyze shot in
  let seen := [EvCapture; EvPrint (MsgDetected (List.length elems))] in
  doubleClickOn Mat contourBoxes recognizeWords cropText target s =
    match findBestMatch elems target with
    | Some (_, elem) =>
        (true,
         mkConsole Mat
           (mkMachine Mat (Some shot) elems (display Mat m) (S (captures Mat m))
              (trace Mat m ++ seen ++
               click_events (px (center elem)) (py (center elem)) LeftButton ++
               EvSleep 100 ::
               click_events (px (center elem)) (py (center elem)) LeftButton))
           (stdin Mat s)
           (log Mat s ++ map (OutCore Mat) seen ++
            OutDoubleClicking Mat (text elem) ::
            map (OutCore Mat)
              (click_events (px (center elem)) (py (center elem)) LeftButton ++
               EvSleep 100 ::
               click_events (px (center elem)) (py (center elem)) LeftButton)))
    | None =>
        (false,
         mkConsole Mat
           (mkMachine Mat (Some shot) elems (display Mat m) (S (captures Mat m))
              (trace Mat m ++ seen))
           (stdin Mat s) (log Mat s ++ map (OutCore Mat) seen))
    end.
Proof.
  cbv zeta. unfold doubleClickOn. unfold io_bind at 1.
  rewrite lift_updateScreen_run. cbv zeta.
  unfold io_bind at 1, get_mach. cbn [mach lastElements].
  destruct (findBestMatch _ target) as [[i elem]|].
  - unfold io_bind at 1. unfold say at 1. unfold io_bind at 1.
    unfold lift at 1. cbn [mach stdin log].
    rewrite doubleClick_run. unfold io_ret.
    cbn [lastElements lastScreenshot captures display trace].
    rewrite skipn_app_length. rewrite <- ?app_assoc. cbn [app map]. reflexivity.
  - unfold io_ret. reflexivity.
Qed.

Lemma moveTo_run (target : string) (s : Console Mat) :
  let m := mach Mat s in
  let shot := display Mat m (captures Mat m) in
  let elems := analyze shot in
  let seen := [EvCapture; EvPrint (MsgDetected (List.length elems))] in
  moveTo Mat contourBoxes recognizeWords cropText target s =
    match findBestMatch elems target with
    | Some (_, elem) =>
        (tt,
         mkConsole Mat
           (mkMachine Mat (Some shot) elems (display Mat m) (S (captures Mat m))
              (trace Mat m ++ seen ++
               [EvMoveMouse (px (center elem)) (py (center elem))]))
           (stdin Mat s)
           (log Mat s ++ map (OutCore Mat) seen ++
            [OutMoving Mat (text elem);
             OutCore Mat (EvMoveMouse (px (center elem)) (py (center elem)))]))
    | None =>
        (tt,
         mkConsole Mat
           (mkMachine Mat (Some shot) elems (display Mat m) (S (captures Mat m))
              (trace Mat m ++ seen))
           (stdin Mat s) (log Mat s ++ map (OutCore Mat) seen))
    end.
Proof.
  cbv zeta. unfold moveTo. unfold io_bind at 1.
  rewrite lift_updateScreen_run. cbv zeta.
  unfold io_bind at 1, get_mach. cbn [mach lastElements].
  destruct (findBestMatch _ target) as [[i elem]|].
  - unfold io_bind at 1. unfold say at 1. unfold lift, moveMouse, emit.
    cbn [mach stdin log].
    cbn [lastElements lastScreenshot captures display trace].
    rewrite skipn_app_length. rewrite <- ?app_assoc. cbn [app map]. reflexivity.
  - unfold io_ret. reflexivity.
Qed.

Lemma lift_clickOn_run (target : string) (rc : bool) (s : Console Mat) :
  let m := mach Mat s in
  let r := clickOn Mat contourBoxes recognizeWords cropText target rc m in
  lift Mat (clickOn Mat contourBoxes recognizeWords cropText target rc) s =
    (fst r, mkConsole Mat (snd r) (stdin Mat s)
              (log Mat s ++
               map (OutCore Mat)
                 (skipn (List.length (trace Mat m)) (trace Mat (snd r))))).
Proof.
  cbv zeta. unfold lift.
  destruct (clickOn Mat contourBoxes recognizeWords cropText target rc
              (mach Mat s)) as [r m'].
  reflexivity.
Qed.

(** *** The three operations on a target *)

(** X10: [doubleClickOn] captures the screen once, analyzes it and reports
    the count; on a match it announces the text and left-clicks twice at
    the center of the match, 100 ms apart, and returns true; with no match
    it returns false having written nothing more and moved nothing.  The
    input is not read. *)
Theorem X10_doubleClickOn (target : string) (s : Console Mat) :
  let m := mach Mat s in
  let shot := display Mat m (captures Mat m) in
  let elems := analyze shot in
  let seen := [EvCapture; EvPrint (MsgDetected (List.length elems))] in
  let r := doubleClickOn Mat contourBoxes recognizeWords cropText target s in
  lastScreenshot Mat (mach Mat (snd r)) = Some shot /\
  lastElements Mat (mach Mat (snd r)) = elems /\
  captures Mat (mach Mat (snd r)) = S (captures Mat m) /\
  stdin Mat (snd r) = stdin Mat s /\
  match findBestMatch elems target with
  | None =>
      fst r = false /\
      trace Mat (mach Mat (snd r)) = (trace Mat m ++ seen)%list /\
      log Mat (snd r) = (log Mat s ++ map (OutCore Mat) seen)%list
  | Some (_, elem) =>
      let twice :=
        (click_events (px (center elem)) (py (center elem)) LeftButton ++
         EvSleep 100 ::
         click_events (px (center elem)) (py (center elem)) LeftButton)%list in
      fst r = true /\
      trace Mat (mach Mat (snd r)) = (trace Mat m ++ seen ++ twice)%list /\
      log Mat (snd r) =
        (log Mat s ++ map (OutCore Mat) seen ++
         OutDoubleClicking Mat (text elem) :: map (OutCore Mat) twice)%list
  end.
Proof.
  cbv zeta. rewrite doubleClickOn_run. cbv zeta.
  destruct (findBestMatch _ target) as [[i elem]|];
    cbn [fst snd mach stdin log lastScreenshot lastElements captures trace];
    repeat split; reflexivity.
Qed.

(** X11: [moveTo] captures and analyzes like the other operations; on a
    match it announces the text and moves the pointer once, to the center
    of the match; it never presses or releases a button, whatever the
    screen shows. *)
Theorem X11_moveTo_never_clicks (target : string) (s : Console Mat) :
  let m := mach Mat s in
  let shot := display Mat m (captures Mat m) in
  let elems := analyze shot in
  let seen := [EvCapture; EvPrint (MsgDetected (List.length elems))] in
  let r := moveTo Mat contourBoxes recognizeWords cropText target s in
  (exists added,
     trace Mat (mach Mat (snd r)) = (trace Mat m ++ added)%list /\
     forall b down, ~ In (EvButton b down) added) /\
  lastElements Mat (mach Mat (snd r)) = elems /\
  stdin Mat (snd r) = stdin Mat s /\
  match findBestMatch elems target with
  | None =>
      trace Mat (mach Mat (snd r)) = (trace Mat m ++ seen)%list /\
      log Mat (snd r) = (log Mat s ++ map (OutCore Mat) seen)%list
  | Some (_, elem) =>
      trace Mat (mach Mat (snd r)) =
        (trace Mat m ++ seen ++
         [EvMoveMouse (px (center elem)) (py (center elem))])%list /\
      log Mat (snd r) =
        (log Mat s ++ map (OutCore Mat) seen ++
         [OutMoving Mat (text elem);
          OutCore Mat (EvMoveMouse (px (center elem)) (py (center elem)))])%list
  end.
Proof.
  cbv zeta. rewrite moveTo_run. cbv zeta.
  destruct (findBestMatch _ target) as [[i elem]|];
    cbn [fst snd mach stdin log lastScreenshot lastElements captures trace].
  - split; [|repeat split; reflexivity].
    eexists. split; [reflexivity|].
    intros b down [H|[H|[H|[]]]]; discriminate.
  - split; [|repeat split; reflexivity].
    eexists. split; [reflexivity|].
    intros b down [H|[H|[]]]; discriminate.
Qed.

(** X12: nothing is cached between operations.  [clickOn],
    [doubleClickOn] and [moveTo] give the same result, the same final
    state and the same output whatever screenshot and candidates the
    previous operation left behind: each looks at a fresh capture. *)
Theorem X12_no_caching (target : string) (rc : bool) (s : Console Mat)
    (shot0 : option Mat) (elems0 : list UIElement) :
  let m := mach Mat s in
  let stale :=
    mkMachine Mat shot0 elems0 (display Mat m) (captures Mat m) (trace Mat m) in
  clickOn Mat contourBoxes recognizeWords cropText target rc stale =
    clickOn Mat contourBoxes recognizeWords cropText target rc m /\
  doubleClickOn Mat contourBoxes recognizeWords cropText target
      (mkConsole Mat stale (stdin Mat s) (log Mat s)) =
    doubleClickOn Mat contourBoxes recognizeWords cropText target s /\
  moveTo Mat contourBoxes recognizeWords cropText target
      (mkConsole Mat stale (stdin Mat s) (log Mat s)) =
    moveTo Mat contourBoxes recognizeWords cropText target s.
Proof.
  cbv zeta. rewrite !clickOn_run, !doubleClickOn_run, !moveTo_run. cbv zeta.
  cbn [mach stdin log lastScreenshot lastElements captures trace display].
  repeat split; reflexivity.
Qed.

(** X13: consecutive operations look at consecutive frames.  The
    candidates a second [clickOn] matches against are those of the frame
    after the one the first saw, and the first call's candidates play no
    part in it. *)
Theorem X13_successive_captures (t1 t2 : string) (rc1 rc2 : bool)
    (m : Machine Mat) :
  let m1 := snd (clickOn Mat contourBoxes recognizeWords cropText t1 rc1 m) in
  let r2 := clickOn Mat contourBoxes recognizeWords cropText t2 rc2 m1 in
  lastElements Mat m1 = analyze (display Mat m (captures Mat m)) /\
  lastElements Mat (snd r2) = analyze (display Mat m (S (captures Mat m))) /\
  captures Mat (snd r2) = S (S (captures Mat m)) /\
  fst r2 =
    match findBestMatch (analyze (display Mat m (S (captures Mat m)))) t2 with
    | Some _ => true
    | None => false
    end.
Proof.
  cbv zeta. rewrite (clickOn_run t1). cbv zeta.
  destruct (findBestMatch _ t1) as [[i1 e1]|]; cbn [snd];
    rewrite clickOn_run; cbv zeta;
    cbn [lastElements captures display];
    destruct (findBestMatch _ t2) as [[i2 e2]|];
    cbn [fst snd lastElements captures]; repeat split; reflexivity.
Qed.

(** *** Reading the input *)

Lemma skip_ws_split (s : string) :
  exists sp, s = (sp ++ skip_ws s)%string /\ all_space sp = true.
Proof.
  induction s as [|c s IH]; cbn [skip_ws].
  - exists EmptyString. split; reflexivity.
  - destruct (isspace c) eqn:E.
    + destruct IH as (sp & H1 & H2). exists (String c sp).
      cbn [append all_space].
      rewrite E, H2. split; [f_equal; exact H1 | reflexivity].
    + exists EmptyString. split; reflexivity.
Qed.

Lemma take_word_split (s : string) :
  s = (fst (take_word s) ++ snd (take_word s))%string.
Proof.
  induction s as [|c s IH]; cbn [take_word]; [reflexivity|].
  destruct (isspace c); [reflexivity|].
  destruct (take_word s) as [w r]. cbn [fst snd] in *. cbn. f_equal. exact IH.
Qed.

Lemma take_line_split (s : string) :
  exists mid, s = (fst (take_line s) ++ mid ++ snd (take_line s))%string.
Proof.
  induction s as [|c s IH]; cbn [take_line].
  - exists EmptyString. reflexivity.
  - destruct (Ascii.eqb c "010"%char).
    + exists (String c EmptyString). reflexivity.
    + destruct IH as (mid & H). destruct (take_line s) as [l r].
      cbn [fst snd] in *. exists mid. cbn. f_equal. exact H.
Qed.

Lemma skip_ws_all_space (sp r : string) :
  all_space sp = true -> skip_ws (sp ++ r) = skip_ws r.
Proof.
  induction sp as [|c sp IH]; cbn [all_space append skip_ws]; [reflexivity|].
  intros H. apply andb_true_iff in H as [H1 H2]. rewrite H1. exact (IH H2).
Qed.

Lemma take_word_exact (w rest : string) :
  no_space w = true -> word_end rest = true ->
  take_word (w ++ rest) = (w, rest).
Proof.
  intros Hw Hr. induction w as [|c w IH]; cbn [append take_word].
  - destruct rest as [|c r]; [reflexivity|]. cbn [word_end] in Hr.
    cbn [take_word]. rewrite Hr. reflexivity.
  - cbn [no_space] in Hw. apply andb_true_iff in Hw as [H1 H2].
    apply negb_true_iff in H1. rewrite H1, (IH H2). reflexivity.
Qed.

Lemma take_line_exact (t rest : string) :
  no_newline t = true ->
  take_line (t ++ String "010"%char rest) = (t, rest).
Proof.
  induction t as [|c t IH]; cbn [no_newline append take_line].
  - rewrite Ascii.eqb_refl. reflexivity.
  - intros H. apply andb_true_iff in H as [H1 H2].
    apply negb_true_iff in H1. rewrite H1, (IH H2). reflexivity.
Qed.

Lemma read_word_inv (cmd : string) (s : Console Mat) (w : string)
    (s' : Console Mat) :
  read_word Mat cmd s = (w, s') ->
  mach Mat s' = mach Mat s /\ log Mat s' = log Mat s /\
  ((w = cmd /\ stdin Mat s' = EmptyString) \/
   exists sp, stdin Mat s = (sp ++ w ++ stdin Mat s')%string).
Proof.
  unfold read_word. destruct (skip_ws_split (stdin Mat s)) as (sp & H1 & _).
  destruct (skip_ws (stdin Mat s)) as [|c r] eqn:E.
  - intros H. inversion H; subst. cbn. auto.
  - pose proof (take_word_split (String c r)) as H2.
    destruct (take_word (String c r)) as [w0 rest]. cbn [fst snd] in H2.
    intros H. inversion H; subst. cbn [mach stdin log].
    split; [reflexivity|]. split; [reflexivity|]. right. exists sp.
    rewrite H1, H2. reflexivity.
Qed.

Lemma read_line_inv (target : string) (s : Console Mat) (t : string)
    (s' : Console Mat) :
  read_line Mat target s = (t, s') ->
  mach Mat s' = mach Mat s /\ log Mat s' = log Mat s /\
  exists pre, stdin Mat s = (pre ++ stdin Mat s')%string.
Proof.
  unfold read_line. destruct (skip_ws_split (stdin Mat s)) as (sp & H1 & _).
  destruct (skip_ws (stdin Mat s)) as [|c r] eqn:E.
  - intros H. inversion H; subst. cbn [mach stdin log].
    split; [reflexivity|]. split; [reflexivity|].
    exists (stdin Mat s). symmetry. apply append_empty_r.
  - destruct (take_line_split (String c r)) as (mid & H2).
    destruct (take_line (String c r)) as [l rest]. cbn [fst snd] in H2.
    intros H. inversion H; subst. cbn [mach stdin log].
    split; [reflexivity|]. split; [reflexivity|].
    exists (sp ++ t ++ mid)%string.
    rewrite H1, H2, !append_assoc'. reflexivity.
Qed.


Lemma dispatch_stdin (cmd target : string) (s : Console Mat) :
  exists pre,
    stdin Mat s =
      (pre ++ stdin Mat (snd (dispatch Mat contourBoxes recognizeWords
                                cropText cmd target s)))%string.
Proof.
  unfold dispatch.
  destruct (cmd =? "show")%string;
    [|destruct (cmd =? "refresh")%string;
      [|destruct (cmd =? "click")%string;
        [|destruct (cmd =? "right")%string;
          [|destruct (cmd =? "double")%string;
            [|destruct (cmd =? "move")%string]]]]].
  - unfold io_bind at 1. rewrite lift_updateScreen_run. cbv zeta.
    exists EmptyString. reflexivity.
  - unfold io_bind at 1. rewrite lift_updateScreen_run. cbv zeta.
    exists EmptyString. reflexivity.
  - unfold io_bind at 1. destruct (read_line Mat target s) as [t s1] eqn:E.
    apply read_line_inv in E as (_ & _ & pre & Hp).
    unfold io_bind. rewrite lift_clickOn_run. cbv zeta. cbn [snd stdin].
    exists pre. exact Hp.
  - unfold io_bind at 1. destruct (read_line Mat target s) as [t s1] eqn:E.
    apply read_line_inv in E as (_ & _ & pre & Hp).
    unfold io_bind. rewrite lift_clickOn_run. cbv zeta. cbn [snd stdin].
    exists pre. exact Hp.
  - unfold io_bind at 1. destruct (read_line Mat target s) as [t s1] eqn:E.
    apply read_line_inv in E as (_ & _ & pre & Hp).
    unfold io_bind. rewrite doubleClickOn_run. cbv zeta.
    exists pre. destruct (findBestMatch _ t) as [[i e]|]; exact Hp.
  - unfold io_bind at 1. destruct (read_line Mat target s) as [t s1] eqn:E.
    apply read_line_inv in E as (_ & _ & pre & Hp).
    unfold io_bind. rewrite moveTo_run. cbv zeta.
    exists pre. destruct (findBestMatch _ t) as [[i e]|]; exact Hp.
  - exists EmptyString. reflexivity.
Qed.


Lemma read_word_exact (cmd : string) (m : Machine Mat)
    (lg : list (Output Mat)) (sp w rest : string) :
  all_space sp = true -> no_space w = true -> w <> EmptyString ->
  word_end rest = true ->
  read_word Mat cmd (mkConsole Mat m (sp ++ w ++ rest) lg) =
    (w, mkConsole Mat m rest lg).
Proof.
  intros Hsp Hw Hne Hr. unfold read_word. cbn [mach stdin log].
  rewrite (skip_ws_all_space _ _ Hsp).
  destruct w as [|c w]; [congruence|].
  pose proof Hw as Hw'. cbn [no_space] in Hw'.
  apply andb_true_iff in Hw' as [Hc _]. apply negb_true_iff in Hc.
  cbn [append skip_ws]. rewrite Hc.
  change (String c (w ++ rest)) with (String c w ++ rest)%string.
  rewrite (take_word_exact _ _ Hw Hr). reflexivity.
Qed.

Lemma line_text_inv (t : string) :
  line_text t = true ->
  exists c t', t = String c t' /\ isspace c = false /\ no_newline t = true.
Proof.
  destruct t as [|c t']; [discriminate|]. unfold line_text.
  intros H. apply andb_true_iff in H as [H1 H2].
  apply negb_true_iff in H1. exists c, t'. auto.
Qed.

Lemma read_line_exact (target : string) (m : Machine Mat)
    (lg : list (Output Mat)) (sp t rest : string) :
  all_space sp = true -> line_text t = true ->
  read_line Mat target
      (mkConsole Mat m (sp ++ t ++ String "010"%char rest) lg) =
    (t, mkConsole Mat m rest lg).
Proof.
  intros Hsp Ht. unfold read_line. cbn [mach stdin log].
  rewrite (skip_ws_all_space _ _ Hsp).
  destruct (line_text_inv _ Ht) as (c & t' & -> & Hc & Hn).
  cbn [append skip_ws]. rewrite Hc.
  change (String c (t' ++ String "010"%char rest))
    with (String c t' ++ String "010"%char rest)%string.
  rewrite (take_line_exact _ _ Hn). reflexivity.
Qed.

Lemma word_end_before (sp t : string) :
  all_space sp = true -> sp <> EmptyString -> word_end (sp ++ t) = true.
Proof.
  destruct sp as [|c sp]; [congruence|]. cbn [all_space append word_end].
  intros H _. apply andb_true_iff in H as [H _]. exact H.
Qed.

Lemma commandMode_loop_S (fuel : nat) (cmd target : string)
    (s : Console Mat) :
  commandMode_loop Mat contourBoxes recognizeWords cropText (S fuel) cmd
      target s =
    let r := read_word Mat cmd
               (mkConsole Mat (mach Mat s) (stdin Mat s)
                  (log Mat s ++ [OutPrompt Mat])) in
    if (fst r =? "quit")%string then Some (snd r)
    else
      let d := dispatch Mat contourBoxes recognizeWords cropText (fst r)
                 target (snd r) in
      commandMode_loop Mat contourBoxes recognizeWords cropText fuel (fst r)
        (fst d) (snd d).
Proof.
  cbn [commandMode_loop]. unfold say. cbv zeta.
  destruct (read_word Mat cmd _) as [w s1]. cbn [fst snd].
  destruct (w =? "quit")%string; [reflexivity|].
  destruct (dispatch Mat contourBoxes recognizeWords cropText w target s1)
    as [t s2].
  reflexivity.
Qed.

Lemma commandMode_loop_quit (fuel : nat) :
  forall (cmd target : string) (s s' : Console Mat),
    cmd <> "quit" ->
    commandMode_loop Mat contourBoxes recognizeWords cropText fuel cmd target
      s = Some s' ->
    exists pre, stdin Mat s = (pre ++ "quit" ++ stdin Mat s')%string.
Proof.
  induction fuel as [|fuel IH]; intros cmd target s s' Hc H; [discriminate|].
  rewrite commandMode_loop_S in H. cbv zeta in H.
  destruct (read_word Mat cmd _) as [w s1] eqn:Er. cbn [fst snd] in H.
  apply read_word_inv in Er as (_ & _ & Hw). cbn [stdin] in Hw.
  destruct (w =? "quit")%string eqn:Eq.
  - apply String.eqb_eq in Eq. subst w. inversion H; subst s1.
    destruct Hw as [[Hw _]|[sp Hw]]; [congruence|].
    exists sp. exact Hw.
  - apply String.eqb_neq in Eq.
    destruct (dispatch_stdin w target s1) as [pre Hp].
    destruct (dispatch Mat contourBoxes recognizeWords cropText w target s1)
      as [t s2].
    cbn [fst snd] in *.
    apply IH in H as [pre2 H2]; [|exact Eq].
    destruct Hw as [[_ Hw]|[sp Hw]].
    + exfalso. rewrite Hw in Hp. rewrite H2 in Hp.
      destruct pre; [|discriminate]. destruct pre2; discriminate.
    + exists (sp ++ w ++ pre ++ pre2)%string.
      rewrite Hw, Hp, H2, !append_assoc'. reflexivity.
Qed.

(** *** The command loop *)

(** X14: [commandMode] returns only after reading the word "quit".  If
    the loop returns, the input it started with holds "quit" and what is
    left of the input is what followed that word. *)
Theorem X14_commandMode_returns_at_quit (fuel : nat) (s s' : Console Mat) :
  commandMode Mat contourBoxes recognizeWords cropText fuel s = Some s' ->
  exists pre, stdin Mat s = (pre ++ "quit" ++ stdin Mat s')%string.
Proof.
  unfold commandMode, say. intros H.
  apply commandMode_loop_quit in H; [exact H | discriminate].
Qed.

(** X15: "quit" ends the loop at once.  When the next word of the input
    is "quit", one iteration writes the prompt, consumes the word and
    returns; the screen is not captured and the pointer is not touched. *)
Theorem X15_quit_ends_loop (fuel : nat) (cmd target : string)
    (m : Machine Mat) (lg : list (Output Mat)) (sp rest : string) :
  all_space sp = true -> word_end rest = true ->
  commandMode_loop Mat contourBoxes recognizeWords cropText (S fuel) cmd
      target (mkConsole Mat m (sp ++ "quit" ++ rest) lg) =
    Some (mkConsole Mat m rest (lg ++ [OutPrompt Mat])).
Proof.
  intros Hsp Hr. rewrite commandMode_loop_S. cbv zeta.
  cbn [mach stdin log].
  rewrite (read_word_exact cmd m _ sp "quit" rest Hsp eq_refl
             ltac:(discriminate) Hr).
  reflexivity.
Qed.


(** X17: the argument of a command is the rest of its line.  After
    "click", "right", "double" or "move" the loop skips white space, takes
    everything up to the newline as the target, inner spaces included, and
    runs [clickOn] with the left button, [clickOn] with the right button,
    [doubleClickOn] or [moveTo] on exactly that text. *)
Theorem X17_argument_is_rest_of_line (fuel : nat) (cmd0 target0 : string)
    (m : Machine Mat) (lg : list (Output Mat)) (sp0 sp1 t rest : string) :
  all_space sp0 = true -> all_space sp1 = true -> sp1 <> EmptyString ->
  line_text t = true ->
  let typed (w : string) :=
    mkConsole Mat m (sp0 ++ w ++ sp1 ++ t ++ String "010"%char rest) lg in
  let after := mkConsole Mat m rest (lg ++ [OutPrompt Mat]) in
  let loop := commandMode_loop Mat contourBoxes recognizeWords cropText in
  loop (S fuel) cmd0 target0 (typed "click") =
    loop fuel "click" t
      (snd (lift Mat (clickOn Mat contourBoxes recognizeWords cropText t false)
              after)) /\
  loop (S fuel) cmd0 target0 (typed "right") =
    loop fuel "right" t
      (snd (lift Mat (clickOn Mat contourBoxes recognizeWords cropText t true)
              after)) /\
  loop (S fuel) cmd0 target0 (typed "double") =
    loop fuel "double" t
      (snd (doubleClickOn Mat contourBoxes recognizeWords cropText t after)) /\
  loop (S fuel) cmd0 target0 (typed "move") =
    loop fuel "move" t
      (snd (moveTo Mat contourBoxes recognizeWords cropText t after)).
Proof.
  intros H0 H1 Hne Ht. cbv zeta.
  pose proof (word_end_before sp1 (t ++ String "010"%char rest) H1 Hne) as He.
  assert (Hstep : forall w : string,
            no_space w = true -> w <> EmptyString -> w <> "quit" ->
            commandMode_loop Mat contourBoxes recognizeWords cropText (S fuel)
              cmd0 target0
              (mkConsole Mat m
                 (sp0 ++ w ++ sp1 ++ t ++ String "010"%char rest) lg) =
            let d := dispatch Mat contourBoxes recognizeWords cropText w
                       target0
                       (mkConsole Mat m (sp1 ++ t ++ String "010"%char rest)
                          (lg ++ [OutPrompt Mat])) in
            commandMode_loop Mat contourBoxes recognizeWords cropText fuel w
              (fst d) (snd d)).
  { intros w Hw Hwe Hq. rewrite commandMode_loop_S. cbv zeta.
    cbn [mach stdin log]. rewrite (read_word_exact cmd0 m _ sp0 w _ H0 Hw Hwe He).
    cbn [fst snd]. apply String.eqb_neq in Hq. rewrite Hq. reflexivity. }
  repeat split.
  - rewrite (Hstep "click" eq_refl ltac:(discriminate) ltac:(discriminate)).
    cbv zeta. unfold dispatch.
    change ("click" =? "show")%string with false.
    change ("click" =? "refresh")%string with false.
    change ("click" =? "click")%string with true. cbv iota.
    unfold io_bind at 1 3. rewrite (read_line_exact _ _ _ _ _ _ H1 Ht).
    unfold io_bind, io_ret.
    destruct (lift Mat _ _) as [r s1]. reflexivity.
  - rewrite (Hstep "right" eq_refl ltac:(discriminate) ltac:(discriminate)).
    cbv zeta. unfold dispatch.
    change ("right" =? "show")%string with false.
    change ("right" =? "refresh")%string with false.
    change ("right" =? "click")%string with false.
    change ("right" =? "right")%string with true. cbv iota.
    unfold io_bind at 1 3. rewrite (read_line_exact _ _ _ _ _ _ H1 Ht).
    unfold io_bind, io_ret.
    destruct (lift Mat _ _) as [r s1]. reflexivity.
  - rewrite (Hstep "double" eq_refl ltac:(discriminate) ltac:(discriminate)).
    cbv zeta. unfold dispatch.
    change ("double" =? "show")%string with false.
    change ("double" =? "refresh")%string with false.
    change ("double" =? "click")%string with false.
    change ("double" =? "right")%string with false.
    change ("double" =? "double")%string with true. cbv iota.
    unfold io_bind at 1 3. rewrite (read_line_exact _ _ _ _ _ _ H1 Ht).
    unfold io_bind, io_ret.
    destruct (doubleClickOn Mat _ _ _ _ _) as [r s1]. reflexivity.
  - rewrite (Hstep "move" eq_refl ltac:(discriminate) ltac:(discriminate)).
    cbv zeta. unfold dispatch.
    change ("move" =? "show")%string with false.
    change ("move" =? "refresh")%string with false.
    change ("move" =? "click")%string with false.
    change ("move" =? "right")%string with false.
    change ("move" =? "double")%string with false.
    change ("move" =? "move")%string with true. cbv iota.
    unfold io_bind at 1 3. rewrite (read_line_exact _ _ _ _ _ _ H1 Ht).
    unfold io_bind, io_ret.
    destruct (moveTo Mat _ _ _ _ _) as [r s1]. reflexivity.
Qed.

(** X18: "show" and "refresh" take a fresh capture and read no argument.
    "refresh" captures and reports the count; "show" does the same and
    then displays that very capture with one annotation per reported
    candidate, in order.  Neither consumes anything from the input, so
    words that follow on the line are read as commands. *)
Theorem X18_show_and_refresh (target : string) (s : Console Mat) :
  let m := mach Mat s in
  let shot := display Mat m (captures Mat m) in
  let elems := analyze shot in
  let seen := [EvCapture; EvPrint (MsgDetected (List.length elems))] in
  let m' :=
    mkMachine Mat (Some shot) elems (display Mat m) (S (captures Mat m))
      (trace Mat m ++ seen) in
  dispatch Mat contourBoxes recognizeWords cropText "refresh" target s =
    (target,
     mkConsole Mat m' (stdin Mat s) (log Mat s ++ map (OutCore Mat) seen)) /\
  dispatch Mat contourBoxes recognizeWords cropText "show" target s =
    (target,
     mkConsole Mat m' (stdin Mat s)
       (log Mat s ++ map (OutCore Mat) seen ++
        [OutShow Mat (Some shot) (map annotation elems)])) /\
  List.length (map annotation elems) = List.length elems.
Proof.
  cbv zeta. split; [|split].
  - unfold dispatch. cbv iota.
    change ("refresh" =? "show")%string with false.
    change ("refresh" =? "refresh")%string with true. cbv iota.
    unfold io_bind. rewrite lift_updateScreen_run. reflexivity.
  - unfold dispatch. change ("show" =? "show")%string with true. cbv iota.
    unfold io_bind at 1. rewrite lift_updateScreen_run. cbv zeta.
    unfold io_bind, showDetections, io_bind, get_mach, say, io_ret.
    cbn [mach stdin log lastScreenshot lastElements].
    rewrite <- app_assoc. reflexivity.
  - apply length_map.
Qed.

(** X19: any word other than the seven commands (compared exactly, so
    also a command in capitals) only writes "Unknown command": nothing is
    captured, nothing is read from the input, the target is kept. *)
Theorem X19_unknown_command (cmd target : string) (s : Console Mat) :
  ~ In cmd ["quit"; "show"; "refresh"; "click"; "right"; "double"; "move"] ->
  dispatch Mat contourBoxes recognizeWords cropText cmd target s =
    (target,
     mkConsole Mat (mach Mat s) (stdin Mat s) (log Mat s ++ [OutUnknown Mat])).
Proof.
  intros H. unfold dispatch.
  repeat match goal with
  | |- context [(cmd =? ?w)%string] =>
      destruct (String.eqb_spec cmd w) as [->|_];
        [exfalso; apply H; cbn; tauto|]
  end.
  reflexivity.
Qed.

End Controller.

Lemma X15_quit_ends_loop_witness :
  commandMode_loop unit demo_boxes demo_no_words demo_crop 1 EmptyString
      EmptyString (mkConsole unit demo_machine (" " ++ "quit" ++ " now") []) =
    Some (mkConsole unit demo_machine " now" ([] ++ [OutPrompt unit])%list).
Proof.
  apply (X15_quit_ends_loop unit demo_boxes demo_no_words demo_crop 0
           EmptyString EmptyString demo_machine [] " " " now");
    reflexivity.
Defined.

Lemma X14_commandMode_returns_at_quit_witness :
  exists pre,
    stdin unit (demo_console "refresh quit now") =
      (pre ++ "quit" ++
       stdin unit
         (mkConsole unit
            (mkMachine unit (Some tt)
               (analyzeScreen unit demo_boxes demo_no_words demo_crop tt)
               (fun _ => tt) 1 [EvCapture; EvPrint (MsgDetected 1)])
            " now"
            [OutBanner unit; OutPrompt unit; OutCore unit EvCapture;
             OutCore unit (EvPrint (MsgDetected 1)); OutPrompt unit]))%string.
Proof.
  apply (X14_commandMode_returns_at_quit unit demo_boxes demo_no_words
           demo_crop 2 (demo_console "refresh quit now")).
  vm_compute. reflexivity.
Defined.


Lemma X17_argument_is_rest_of_line_witness :
  commandMode_loop unit demo_boxes demo_word demo_crop 2 EmptyString
      EmptyString
      (mkConsole unit demo_machine
         (EmptyString ++ "right" ++ "  " ++ "Save As" ++
          String "010"%char "quit") []) =
    commandMode_loop unit demo_boxes demo_word demo_crop 1 "right" "Save As"
      (snd (lift unit
              (clickOn unit demo_boxes demo_word demo_crop "Save As" true)
              (mkConsole unit demo_machine "quit" ([] ++ [OutPrompt unit])%list))).
Proof.
  apply (X17_argument_is_rest_of_line unit demo_boxes demo_word demo_crop 1
           EmptyString EmptyString demo_machine [] EmptyString "  " "Save As"
           "quit");
    first [reflexivity | discriminate].
Defined.

Lemma X19_unknown_command_witness :
  dispatch unit demo_boxes demo_word demo_crop "Click" "OK"
      (demo_console " OK") =
    ("OK",
     mkConsole unit (mach unit (demo_console " OK"))
       (stdin unit (demo_console " OK"))
       (log unit (demo_console " OK") ++ [OutUnknown unit])%list).
Proof.
  apply (X19_unknown_command unit demo_boxes demo_word demo_crop "Click" "OK"
           (demo_console " OK")).
  cbn [In]. intros H.
  repeat (destruct H as [H|H]; [discriminate H|]). exact H.
Defined.

(** ** Exact and permuted texts *)

Lemma div_pos_ge_1 x y :
  pos_finite x = true -> pos_finite y = true ->
  bits y <= bits x -> bits f1 <= bits (div x y).
Proof.
  destruct x as [| | |[] m1 e1]; try discriminate.
  destruct y as [| | |[] m2 e2]; try discriminate.
  cbn [pos_finite]. intros B1 B2 Hx.
  assert (H1 : f1 = round32 (2 ^ 23) 1 (-23)) by (vm_compute; reflexivity).
  rewrite H1, div_round32. cbv zeta.
  apply round32_mono; [|apply div_ready|].
  { unfold ready. rewrite Z.div_1_r. vm_compute. repeat split; discriminate. }
  pose proof (dle_of_bits _ _ _ _ B2 B1 Hx) as Hd.
  set (e' := div_exp (Z.pos m1) e1 (Z.pos m2) e2).
  assert (Hs : 0 <= e1 - e2 - e') by (unfold e', div_exp; lia).
  set (t := Z.min e' (-23)).
  specialize (Hd (e2 + t) ltac:(lia) ltac:(lia)).
  apply (dle_intro _ _ _ _ t); try lia.
  replace (e1 - (e2 + t)) with ((e1 - e2 - e') + (e' - t)) in Hd by lia.
  replace (e2 - (e2 + t)) with (23 + (-23 - t)) in Hd by lia.
  rewrite !pow2_split in Hd by lia.
  rewrite Z.mul_1_r.
  assert (Hp : 0 < 2 ^ (-23 - t)) by (apply pow2_pos; lia).
  assert (Hq : 0 < 2 ^ (e' - t)) by (apply pow2_pos; lia).
  clear - Hd Hp Hq. nia.
Qed.

Lemma bits_inj x y :
  nonneg x = true -> nonneg y = true -> bits x = bits y -> x = y.
Proof.
  assert (P23 : 2 ^ 23 = 8388608) by reflexivity.
  assert (P24 : 2 ^ 24 = 16777216) by reflexivity.
  destruct x as [[]|[]| |[] m e]; try discriminate;
    destruct y as [[]|[]| |[] m' e']; try discriminate;
    cbn [nonneg negb andb bits]; unfold inf_bits; intros Bx By H;
    try reflexivity;
    try (apply bounded_inv in Bx); try (apply bounded_inv in By);
    rewrite ?P23, ?P24 in *; try lia.
  assert (e = e') by lia. assert (Z.pos m = Z.pos m') by lia.
  congruence.
Qed.

Lemma div_self n :
  0 < n <= Int.max_signed -> div (of_Z n) (of_Z n) = f1.
Proof.
  intros Hn. pose proof (of_Z_pos_finite n Hn) as Hp.
  apply bits_inj.
  - apply div_pos_nonneg; exact Hp.
  - reflexivity.
  - apply Z.le_antisymm.
    + apply div_pos_le_1; [exact Hp | exact Hp | lia].
    + apply div_pos_ge_1; [exact Hp | exact Hp | lia].
Qed.

Lemma substring_of_refl s : substring_of s s.
Proof. exists EmptyString, EmptyString. cbn. symmetry. apply append_empty_r. Qed.

(** X20: the exact text is not the best possible match.  A query scores
    0.9 against itself (in any letter case), while a text that is not a
    substring of the query nor contains it, is at least as long as the
    query and is made of the query's characters scores 1.0. *)
Theorem X20_permuted_text_beats_exact (a b : string) :
  let lowerA := transform tolower a in
  let lowerB := transform tolower b in
  (Z.of_nat (length a) <= Int.max_signed)%Z ->
  ~ substring_of lowerA lowerB -> ~ substring_of lowerB lowerA ->
  (length b <= length a)%nat ->
  count_occurring lowerA lowerB = length lowerA ->
  textSimilarity a b = f1 /\
  textSimilarity b b = f0_9 /\
  ltb (textSimilarity b b) (textSimilarity a b) = true.
Proof.
  intros lowerA lowerB Hlen Hab Hba Hle Hall.
  assert (Hbb : textSimilarity b b = f0_9).
  { unfold textSimilarity.
    replace (not_npos (find (transform tolower b) (transform tolower b)))
      with true; [reflexivity|].
    symmetry. apply find_substring, substring_of_refl. }
  assert (Hnf : not_npos (find lowerA lowerB) || not_npos (find lowerB lowerA)
                = false).
  { apply orb_false_iff. split.
    - destruct (not_npos (find lowerA lowerB)) eqn:E; [|reflexivity].
      exfalso. apply Hba, find_substring. exact E.
    - destruct (not_npos (find lowerB lowerA)) eqn:E; [|reflexivity].
      exfalso. apply Hab, find_substring. exact E. }
  assert (Hts : textSimilarity a b = f1).
  { unfold textSimilarity. fold lowerA lowerB. rewrite Hnf.
    pose proof (no_substring_nonempty _ _ Hnf) as [Hpa _].
    assert (HlA : length lowerA = length a) by apply transform_length.
    assert (HlB : length lowerB = length b) by apply transform_length.
    rewrite count_matches_exact by (rewrite HlA; exact Hlen).
    rewrite Hall, Nat.max_l by lia.
    apply div_self. lia. }
  split; [exact Hts|]. split; [exact Hbb|].
  rewrite Hts, Hbb. vm_compute. reflexivity.
Qed.

Lemma X20_permuted_text_beats_exact_witness :
  textSimilarity "Ab" "ba" = f1 /\
  textSimilarity "ba" "ba" = f0_9 /\
  ltb (textSimilarity "ba" "ba") (textSimilarity "Ab" "ba") = true.
Proof.
  apply (X20_permuted_text_beats_exact "Ab" "ba").
  - vm_compute. discriminate.
  - intros H. apply find_substring in H. discriminate H.
  - intros H. apply find_substring in H. discriminate H.
  - cbn. lia.
  - reflexivity.
Defined.
